(** * rolesapi: the Discord roles API, its listing cache and its queries

    A shallow embedding of [src/index.js] (the API-key middleware, the cached
    listing endpoint, the single-record lookup) and of the activity
    endpoints of the sibling revisions of the same file, followed by the
    properties of the cache, of the queries and of the handlers.

    Conventions.
    - A JavaScript string is a [string] holding its UTF-8 bytes.  Splitting
      on an ASCII separator and scanning ASCII digits give the same pieces
      on bytes as on UTF-16 code units.
    - A JavaScript number is an integer-valued double, [NaN] or an
      infinity: the handlers compute with nothing else.  [Js.of_int]
      rounds an integer to the nearest double, ties to even.
    - [await pool.query(...)] either yields rows or throws; what it does is
      given by a [Pool] of answers, and [pool_of_db] is the pool of a
      healthy PostgreSQL store, with the SQL text of each query modelled
      over the tables it reads. *)

From Stdlib Require Import ZArith List String Ascii Bool Lia.
From Stdlib Require Import Sorting.Sorted Sorting.Permutation Sorting.Mergesort.
From Stdlib Require Import Structures.Orders Structures.OrdersEx.
From Stdlib Require Import RelationClasses.
Import ListNotations.

Local Open Scope string_scope.
Local Open Scope Z_scope.

(* ================================================================== *)
(** ** JavaScript values the handlers compute with *)
(* ================================================================== *)

Module Js.

(** The result of [parseInt] and of arithmetic on it: [NaN], a double
    that holds an integer, or an infinity. *)
Inductive num : Type :=
| NaN : num
| Num : Z -> num
| PosInf : num
| NegInf : num.

(** The Number value of an integer: integers below 2^53 in magnitude are
    doubles; a larger one is rounded to 53 significant bits, to the
    nearest and on a tie to the even one, and beyond the largest double it
    becomes an infinity. *)
Definition of_int (z : Z) : num :=
  let a := Z.abs z in
  if a <? 2 ^ 53 then Num z
  else
    let e := Z.log2 a - 52 in
    let q := Z.shiftr a e in
    let r := a - Z.shiftl q e in
    let half := Z.shiftl 1 (e - 1) in
    let q' := if (half <? r) || ((half =? r) && Z.odd q) then q + 1 else q in
    let v := Z.shiftl q' e in
    if 2 ^ 1024 <=? v then (if z <? 0 then NegInf else PosInf)
    else Num (Z.sgn z * v).
Arguments of_int : simpl never.

(** [ToBoolean] on a number: [NaN] and [0] are falsy. *)
Definition truthy_num (x : num) : bool :=
  match x with
  | NaN => false
  | Num z => negb (z =? 0)
  | PosInf | NegInf => true
  end.

(** [x || d] on numbers. *)
Definition or_num (x d : num) : num :=
  if truthy_num x then x else d.

(** [a - b]: the exact difference, rounded. *)
Definition sub (a b : num) : num :=
  match a, b with
  | NaN, _ | _, NaN => NaN
  | Num x, Num y => of_int (x - y)
  | PosInf, PosInf | NegInf, NegInf => NaN
  | PosInf, _ | _, NegInf => PosInf
  | NegInf, _ | _, PosInf => NegInf
  end.

(** [a > b]: every comparison with [NaN] is false. *)
Definition gt (a b : num) : bool :=
  match a, b with
  | Num x, Num y => y <? x
  | PosInf, Num _ | PosInf, NegInf | Num _, NegInf => true
  | _, _ => false
  end.

(** [ToBoolean] on a string-or-null: [null] and the empty string are falsy. *)
Definition truthy_str (s : option string) : bool :=
  match s with
  | None => false
  | Some "" => false
  | Some _ => true
  end.

(** [strip_prefix p s] is the rest of [s] after its prefix [p], if [s]
    starts with [p]. *)
Fixpoint strip_prefix (p s : string) : option string :=
  match p, s with
  | EmptyString, _ => Some s
  | String a p', String b s' =>
      if Ascii.eqb a b then strip_prefix p' s' else None
  | String _ _, EmptyString => None
  end.

(** [cut sep s] finds the first occurrence of [sep] in [s] and returns
    what comes before it and what comes after it. *)
Fixpoint cut (sep s : string) : option (string * string) :=
  match strip_prefix sep s with
  | Some rest => Some (EmptyString, rest)
  | None =>
      match s with
      | EmptyString => None
      | String c s' =>
          match cut sep s' with
          | Some (before, rest) => Some (String c before, rest)
          | None => None
          end
      end
  end.

(** The loop of [String.prototype.split] for a non-empty separator: cut at
    the first occurrence, go on after it; the last piece is what is left. *)
Fixpoint split_from (fuel : nat) (sep s : string) : list string :=
  match fuel with
  | O => [s]
  | S n =>
      match cut sep s with
      | None => [s]
      | Some (before, rest) => before :: split_from n sep rest
      end
  end.

(** [s.split(sep)], [sep] not empty.  Every round consumes at least one
    character, so the length of [s] is fuel enough ([split_fuel_enough]). *)
Definition split (sep s : string) : list string :=
  split_from (String.length s) sep s.

(** [pieces.join(sep)]. *)
Fixpoint join (sep : string) (l : list string) : string :=
  match l with
  | [] => EmptyString
  | [x] => x
  | x :: tl => x ++ sep ++ join sep tl
  end.

Definition byte (c : ascii) : N := N_of_ascii c.

(** The one-byte [StrWhiteSpaceChar]s: TAB, LF, VT, FF, CR, SP. *)
Definition ws1 (a : ascii) : bool :=
  let n := byte a in
  ((9 <=? n) && (n <=? 13) || (n =? 32))%N.

(** U+00A0, as its two UTF-8 bytes. *)
Definition ws2 (a b : ascii) : bool :=
  ((byte a =? 194) && (byte b =? 160))%N.

(** The three-byte ones: U+1680, U+2000..U+200A, U+2028, U+2029, U+202F,
    U+205F, U+3000 and U+FEFF. *)
Definition ws3 (a b c : ascii) : bool :=
  let x := byte a in
  let y := byte b in
  let z := byte c in
  ((x =? 225) && (y =? 154) && (z =? 128)
   || (x =? 226) && (y =? 128)
      && ((128 <=? z) && (z <=? 138) || (z =? 168) || (z =? 169) || (z =? 175))
   || (x =? 226) && (y =? 129) && (z =? 159)
   || (x =? 227) && (y =? 128) && (z =? 128)
   || (x =? 239) && (y =? 187) && (z =? 191))%N.

(** Leading white space is skipped by [parseInt] ([TrimString], start). *)
Fixpoint trim_start (s : string) : string :=
  match s with
  | EmptyString => s
  | String a s1 =>
      if ws1 a then trim_start s1
      else
        match s1 with
        | EmptyString => s
        | String b s2 =>
            if ws2 a b then trim_start s2
            else
              match s2 with
              | EmptyString => s
              | String c s3 => if ws3 a b c then trim_start s3 else s
              end
        end
  end.

Definition digit (a : ascii) : option Z :=
  let n := byte a in
  if ((48 <=? n) && (n <=? 57))%N then Some (Z.of_N n - 48) else None.

(** The value of the longest prefix of decimal digits, from [acc]. *)
Fixpoint digits_value (acc : Z) (s : string) : Z :=
  match s with
  | EmptyString => acc
  | String a s' =>
      match digit a with
      | Some d => digits_value (10 * acc + d) s'
      | None => acc
      end
  end.

(** What is left after an optional sign, and the sign. *)
Definition strip_sign (s : string) : Z * string :=
  match s with
  | String "-" r => (-1, r)
  | String "+" r => (1, r)
  | _ => (1, s)
  end.

(** [parseInt(s, 10)]: white space, a sign, then the longest run of
    digits; [NaN] when there is no digit, and else the Number value of the
    integer the digits write, rounded exactly (the language lets an
    implementation approximate after the 20th significant digit; V8 does
    not). *)
Definition parseInt (s : string) : num :=
  let (sign, body) := strip_sign (trim_start s) in
  match body with
  | String a _ =>
      match digit a with
      | Some _ => of_int (sign * digits_value 0 body)
      | None => NaN
      end
  | EmptyString => NaN
  end.

(** [parseInt(v, 10)] on a value that is a string, [null] or [undefined]:
    the value goes through [ToString] first. *)
Inductive value : Type :=
| Undefined : value
| Null : value
| Str : string -> value.

Definition to_string (v : value) : string :=
  match v with
  | Undefined => "undefined"
  | Null => "null"
  | Str s => s
  end.

Definition parseInt_of (v : value) : num := parseInt (to_string v).

(** A [Map] with string keys keeps its entries in insertion order;
    [set] on a key already there replaces the value in place. *)
Definition jsmap (V : Type) : Type := list (string * V).

Fixpoint map_set {V} (k : string) (v : V) (m : jsmap V) : jsmap V :=
  match m with
  | [] => [(k, v)]
  | (k', v') :: tl =>
      if String.eqb k k' then (k', v) :: tl else (k', v') :: map_set k v tl
  end.

(** [new Map(entries)]. *)
Definition map_of {V} (entries : list (string * V)) : jsmap V :=
  fold_left (fun m e => map_set (fst e) (snd e) m) entries [].

(** [m.get(k)], [None] for [undefined]. *)
Fixpoint map_get {V} (k : string) (m : jsmap V) : option V :=
  match m with
  | [] => None
  | (k', v) :: tl => if String.eqb k k' then Some v else map_get k tl
  end.

(** [Array.from(new Set(l))]: each string once, at its first position;
    [seen] holds the strings already in the set. *)
Fixpoint set_of (seen l : list string) : list string :=
  match l with
  | [] => []
  | x :: tl =>
      if existsb (String.eqb x) seen then set_of seen tl
      else x :: set_of (x :: seen) tl
  end.

End Js.

(* ================================================================== *)
(** ** Data model *)
(* ================================================================== *)

Module Activity.
(** Modelled from the spec: the declaration of the table
    [channel_activity] is not in the repository.  A row has the columns
    the queries name; every record carries an activity timestamp and an
    on-server flag; the name and the role string may be NULL. *)
Record t : Type := mk
  { user_id : string;
    username : option string;
    roles : option string;
    last_message : Z;
    on_server : bool }.
End Activity.

Module Row.
(** A row as the listing and the lookup queries select it. *)
Record t : Type := mk
  { user_id : string;
    username : option string;
    roles : option string }.
End Row.

Module Member.
(** The object a handler answers with for one member. *)
Record t : Type := mk
  { discordid : string;
    username : option string;
    roles : list string }.
End Member.

Module Message.
(** Modelled from the spec: the declaration of the table [messages_data]
    is not in the repository.  A row is the message count of one identity
    on one day; [date] is a day number. *)
Record t : Type := mk
  { userid : string;
    date : Z;
    messages : Z }.
End Message.

Module Snap.
(** A row of the per-snapshot sums: [SUM(message_count)] arrives as a
    decimal string, or NULL. *)
Record t : Type := mk
  { user_id : string;
    msg : Js.value }.
End Snap.

(** [const cache = { data: null, timestamp: null, cacheTime: 5 * 60 * 1000 }]. *)
Record Cache : Type := mkCache
  { data : option (list Member.t);
    timestamp : option Z;
    cacheTime : Z }.

Definition cache : Cache :=
  {| data := None; timestamp := None; cacheTime := 5 * 60 * 1000 |}.

(** The tables of the store the modelled queries read; [apikeys] holds
    the keys of its rows. *)
Record Db : Type := mkDb
  { channel_activity : list Activity.t;
    apikeys : list string;
    messages_data : list Message.t }.

(** A profile picture as the picture endpoint answers it. *)
Record ProfilePicture : Type := mkPicture
  { url : string;
    artistName : string }.

(** What is sent: a status and a JSON body. *)
Inductive Body : Type :=
| Users : list Member.t -> Body
| User : Member.t -> Body
| Strings : list string -> Body
| Pictures : list ProfilePicture -> Body
| Error : string -> Body.

Record Response : Type := mkResponse
  { status : Z;
    body : Body }.

(** [res.json(b)] and [res.status(n).json({ error: msg })]. *)
Definition json (b : Body) : Response := {| status := 200; body := b |}.
Definition fail (n : Z) (msg : string) : Response :=
  {| status := n; body := Error msg |}.

(* ================================================================== *)
(** ** The SQL the handlers send *)
(* ================================================================== *)

Module Sql.

(** [ORDER BY user_id, last_message DESC]; identities in byte order. *)
Module ActivityOrder <: TotalLeBool.
Definition t := Activity.t.
Definition leb (a b : t) : bool :=
  match String_as_OT.compare (Activity.user_id a) (Activity.user_id b) with
  | Lt => true
  | Eq => Activity.last_message b <=? Activity.last_message a
  | Gt => false
  end.
Theorem leb_total : forall a b, leb a b = true \/ leb b a = true.
Proof.
  intros a b. unfold leb.
  destruct (String_as_OT.compare_spec (Activity.user_id a) (Activity.user_id b))
    as [E | L | L].
  - rewrite E.
    destruct (String_as_OT.compare_spec (Activity.user_id b) (Activity.user_id b))
      as [_ | L | L]; try (exfalso; revert L; apply irreflexivity).
    destruct (Z.leb_spec (Activity.last_message b) (Activity.last_message a)); auto.
    right. apply Z.leb_le. lia.
  - now left.
  - right.
    destruct (String_as_OT.compare_spec (Activity.user_id b) (Activity.user_id a))
      as [E | L' | L']; auto.
    + subst. rewrite E in L. exfalso; revert L; apply irreflexivity.
    + exfalso. apply (irreflexivity (R := String_as_OT.lt) (x := Activity.user_id a)).
      etransitivity; eassumption.
Qed.
End ActivityOrder.

Module ActivitySort := Sort ActivityOrder.

(** [SELECT DISTINCT ON (user_id)] over sorted rows: the first row of each
    run of equal [user_id] is kept. *)
Fixpoint distinct_on (prev : option string) (l : list Activity.t) : list Activity.t :=
  match l with
  | [] => []
  | a :: tl =>
      let keep := a :: distinct_on (Some (Activity.user_id a)) tl in
      match prev with
      | Some u => if String.eqb u (Activity.user_id a) then distinct_on prev tl else keep
      | None => keep
      end
  end.

(** The identity [DISTINCT ON] saw last is not above the identity of any
    row still to come. *)
Definition below (prev : option string) (l : list Activity.t) : Prop :=
  match prev with
  | Some u =>
      forall x, In x l -> String_as_OT.compare u (Activity.user_id x) <> Gt
  | None => True
  end.

(** The select list [user_id, username, roles]. *)
Definition project (a : Activity.t) : Row.t :=
  {| Row.user_id := Activity.user_id a;
     Row.username := Activity.username a;
     Row.roles := Activity.roles a |}.

(** [column = $1], false on NULL. *)
Definition eq_param (col : option string) (p : string) : bool :=
  match col with
  | Some c => String.eqb c p
  | None => false
  end.

(** The rows [DISTINCT ON] keeps, for a [WHERE] condition. *)
Definition latest_per_user (cond : Activity.t -> bool) (tbl : list Activity.t)
  : list Activity.t :=
  distinct_on None (ActivitySort.sort (filter cond tbl)).

(** [SELECT DISTINCT ON (user_id) user_id, username, roles
     FROM channel_activity WHERE on_server = true
     ORDER BY user_id, last_message DESC]. *)
Definition listing (tbl : list Activity.t) : list Row.t :=
  map project (latest_per_user Activity.on_server tbl).

(** The [WHERE] of the lookup:
    [on_server = true AND (user_id = $1 OR username = $1)]. *)
Definition lookup_where (p : string) (a : Activity.t) : bool :=
  Activity.on_server a
  && (String.eqb (Activity.user_id a) p || eq_param (Activity.username a) p).

(** The lookup: the same query with that [WHERE], and [LIMIT 1]. *)
Definition lookup (tbl : list Activity.t) (p : string) : list Row.t :=
  firstn 1 (map project (latest_per_user (lookup_where p) tbl)).

(** [SELECT apikey FROM apikeys WHERE apikey = $1]. *)
Definition apikey (keys : list string) (p : string) : list string :=
  filter (String.eqb p) keys.

(** [WHERE date BETWEEN $1 AND $2]. *)
Definition in_window (lo hi : Z) (m : Message.t) : bool :=
  (lo <=? Message.date m) && (Message.date m <=? hi).

(** [SUM(messages)] of one group. *)
Definition total (u : string) (rows : list Message.t) : Z :=
  fold_right Z.add 0
    (map Message.messages (filter (fun m => String.eqb (Message.userid m) u) rows)).

(** [SELECT userid, SUM(messages) AS total_messages FROM messages_data
     WHERE date BETWEEN $1 AND $2 GROUP BY userid HAVING SUM(messages) > $3];
    the groups come each once, in the order of their first row, and [$3]
    is compared as the number it is. *)
Definition window (tbl : list Message.t) (lo hi : Z) (min : Js.num)
  : list (string * Z) :=
  let rows := filter (in_window lo hi) tbl in
  filter (fun g => Js.gt (Js.Num (snd g)) min)
    (map (fun u => (u, total u rows)) (Js.set_of [] (map Message.userid rows))).

End Sql.

(* ================================================================== *)
(** ** The pool and the handler monad *)
(* ================================================================== *)

(** What [await pool.query(...)] does: it yields rows or throws. *)
Inductive QResult (A : Type) : Type :=
| Rows : list A -> QResult A
| Failed : string -> QResult A.
Arguments Rows {A} _.
Arguments Failed {A} _.

(** The queries of the service, with their parameters. *)
Inductive Query : Type :=
| SelApiKey : string -> Query
| SelListing : Query
| SelLookup : string -> Query
| SelWindow : Z -> Z -> Js.num -> Query
| SelFreshSnapshot : Query
| SelSnapshot : Z -> Query
| SelHandles : list string -> Query.

(** The answers of the store to each query. *)
Record Pool : Type := mkPool
  { q_apikey : string -> QResult string;
    q_listing : QResult Row.t;
    q_lookup : string -> QResult Row.t;
    q_window : Z -> Z -> Js.num -> QResult (string * Z);
    q_fresh_snapshot : QResult Z;
    q_snapshot : Z -> QResult Snap.t;
    q_handles : list string -> QResult (option string) }.

(** The process state a handler runs in: the cache object, and the
    queries sent so far (oldest first). *)
Record World : Type := mkWorld
  { w_cache : Cache;
    w_queries : list Query }.

(** A handler body either finishes with a value or throws. *)
Inductive Outcome (A : Type) : Type :=
| Done : A -> Outcome A
| Thrown : string -> Outcome A.
Arguments Done {A} _.
Arguments Thrown {A} _.

Definition M (A : Type) : Type := World -> Outcome A * World.

Definition ret {A} (a : A) : M A := fun w => (Done a, w).

Definition bind {A B} (m : M A) (k : A -> M B) : M B :=
  fun w =>
    match m w with
    | (Done a, w') => k a w'
    | (Thrown e, w') => (Thrown e, w')
    end.

(** [try { body } catch (error) { handler }]. *)
Definition try_catch {A} (body : M A) (handler : string -> M A) : M A :=
  fun w =>
    match body w with
    | (Done a, w') => (Done a, w')
    | (Thrown e, w') => handler e w'
    end.

Declare Scope handler_scope.
Delimit Scope handler_scope with handler.
Notation "x <- m ;; k" := (bind m (fun x => k))
  (at level 61, m at next level, right associativity) : handler_scope.
Notation "m ;; k" := (bind m (fun _ => k))
  (at level 61, right associativity) : handler_scope.
Local Open Scope handler_scope.

(** [await pool.query(q)], answered by [r]. *)
Definition query {A} (q : Query) (r : QResult A) : M (list A) :=
  fun w =>
    let w' := {| w_cache := w_cache w; w_queries := w_queries w ++ [q] |} in
    match r with
    | Rows rows => (Done rows, w')
    | Failed e => (Thrown e, w')
    end.

Definition read_cache : M Cache := fun w => (Done (w_cache w), w).

(** [cache.data = users]. *)
Definition set_data (users : list Member.t) : M unit :=
  fun w =>
    let c := w_cache w in
    (Done tt,
     {| w_cache := {| data := Some users; timestamp := timestamp c;
                      cacheTime := cacheTime c |};
        w_queries := w_queries w |}).

(** [cache.timestamp = now]. *)
Definition set_timestamp (now : Z) : M unit :=
  fun w =>
    let c := w_cache w in
    (Done tt,
     {| w_cache := {| data := data c; timestamp := Some now;
                      cacheTime := cacheTime c |};
        w_queries := w_queries w |}).

(** The pool of a healthy store: every query is answered from the tables.
    The snapshot and handle tables are not modelled. *)
Definition pool_of_db (db : Db) (rest : Pool) : Pool :=
  {| q_apikey := fun k => Rows (Sql.apikey (apikeys db) k);
     q_listing := Rows (Sql.listing (channel_activity db));
     q_lookup := fun k => Rows (Sql.lookup (channel_activity db) k);
     q_window := fun lo hi min => Rows (Sql.window (messages_data db) lo hi min);
     q_fresh_snapshot := q_fresh_snapshot rest;
     q_snapshot := q_snapshot rest;
     q_handles := q_handles rest |}.

(** The pool of a store that is down. *)
Definition pool_down (e : string) : Pool :=
  {| q_apikey := fun _ => Failed e;
     q_listing := Failed e;
     q_lookup := fun _ => Failed e;
     q_window := fun _ _ _ => Failed e;
     q_fresh_snapshot := Failed e;
     q_snapshot := fun _ => Failed e;
     q_handles := fun _ => Failed e |}.

(* ================================================================== *)
(** ** src/index.js *)
(* ================================================================== *)

(** What the middleware did: it answered, or it called [next()]. *)
Inductive Auth : Type :=
| Sent : Response -> Auth
| Next : Auth.

(** [authenticateApiKey]; [apiKey] is [req.headers['x-api-key']]. *)
Definition authenticateApiKey (pool : Pool) (apiKey : option string) : M Auth :=
  match apiKey with
  | None | Some "" => ret (Sent (fail 401 "API key is required"))
  | Some k =>
      try_catch
        (result <- query (SelApiKey k) (q_apikey pool k) ;;
         if (List.length result =? 0)%nat
         then ret (Sent (fail 401 "Invalid API key"))
         else ret Next)
        (fun error => ret (Sent (fail 500 "Authentication error")))
  end.

(** [app.get(path, authenticateApiKey, handler)]. *)
Definition route (pool : Pool) (apiKey : option string) (handler : M Response)
  : M Response :=
  a <- authenticateApiKey pool apiKey ;;
  match a with
  | Sent r => ret r
  | Next => handler
  end.

(** [user.roles ? user.roles.split(', ') : []]. *)
Definition roles_of (roles : option string) : list string :=
  match roles with
  | Some s => if Js.truthy_str roles then Js.split ", " s else []
  | None => []
  end.

(** [{ discordid: user.user_id, username: user.username, roles: ... }]. *)
Definition member_of (user : Row.t) : Member.t :=
  {| Member.discordid := Row.user_id user;
     Member.username := Row.username user;
     Member.roles := roles_of (Row.roles user) |}.

(** The test of the listing handler,
    [cache.data && cache.timestamp && (now - cache.timestamp < cache.cacheTime)],
    and the payload it serves.  An array is truthy, also an empty one; a
    timestamp is truthy unless it is [null] or [0]. *)
Definition cached (c : Cache) (now : Z) : option (list Member.t) :=
  match data c, timestamp c with
  | Some d, Some t =>
      if Js.truthy_num (Js.Num t) && (now - t <? cacheTime c) then Some d else None
  | _, _ => None
  end.

(** [GET /api/discord]; [now] is what [Date.now()] returned. *)
Definition get_api_discord (pool : Pool) (now : Z) : M Response :=
  try_catch
    (c <- read_cache ;;
     match cached c now with
     | Some d => ret (json (Users d))
     | None =>
         result <- query SelListing (q_listing pool) ;;
         let users := map member_of result in
         set_data users ;;
         set_timestamp now ;;
         ret (json (Users users))
     end)
    (fun error => ret (fail 500 "Failed to fetch all users")).

(** [GET /api/discord/:idusername]. *)
Definition get_api_discord_idusername (pool : Pool) (idusername : string)
  : M Response :=
  try_catch
    (result <- query (SelLookup idusername) (q_lookup pool idusername) ;;
     match result with
     | [] => ret (fail 404 "User not found")
     | user :: _ => ret (json (User (member_of user)))
     end)
    (fun error => ret (fail 500 "Failed to fetch user")).

(** Running a handler from a state of the process. *)
Definition run {A} (m : M A) (c : Cache) : Outcome A * World :=
  m {| w_cache := c; w_queries := [] |}.

(** Requests to [GET /api/discord] served one after the other, each
    through [authenticateApiKey]; a request is its [x-api-key] header and
    what [Date.now()] returns in the handler. *)
Fixpoint serve_all (pool : Pool) (requests : list (option string * Z)) (w : World)
  : list (Outcome Response) * World :=
  match requests with
  | [] => ([], w)
  | (apiKey, now) :: tl =>
      let (r, w1) := route pool apiKey (get_api_discord pool now) w in
      let (rs, w2) := serve_all pool tl w1 in
      (r :: rs, w2)
  end.

(** The listing query, among the queries sent. *)
Definition is_listing (q : Query) : bool :=
  match q with
  | SelListing => true
  | _ => false
  end.

(** The cache as a refresh at clock reading [t] leaves it. *)
Definition stored (l : list Member.t) (t : Z) : Cache :=
  {| data := Some l; timestamp := Some t; cacheTime := cacheTime cache |}.

(* ================================================================== *)
(** ** The listing handler on the event loop *)
(* ================================================================== *)

(** The handler up to its [await]: a hit answers at once. *)
Definition listing_begin (now : Z) (c : Cache) : option Response :=
  match cached c now with
  | Some d => Some (json (Users d))
  | None => None
  end.

(** The handler after its [await], with the outcome of the query and the
    [now] it read before: one turn of the event loop, the two assignments
    and the answer together. *)
Definition listing_resume (now : Z) (r : QResult Row.t) (c : Cache)
  : Cache * Response :=
  match r with
  | Rows result =>
      let users := map member_of result in
      ({| data := Some users; timestamp := Some now; cacheTime := cacheTime c |},
       json (Users users))
  | Failed _ => (c, fail 500 "Failed to fetch all users")
  end.

(** The process between two turns: the cache, the [now] of every request
    waiting for its query, and (for the statements only) the refreshes
    that completed, each with the payload it computed and the [now] it had
    read. *)
Record Loop : Type := mkLoop
  { l_cache : Cache;
    l_waiting : list Z;
    l_refreshes : list (list Member.t * Z) }.

Definition boot : Loop :=
  {| l_cache := cache; l_waiting := []; l_refreshes := [] |}.

(** [l] without its [i]-th element. *)
Fixpoint drop_nth {A} (i : nat) (l : list A) : list A :=
  match l, i with
  | [], _ => []
  | _ :: tl, O => tl
  | x :: tl, S j => x :: drop_nth j tl
  end.

(** One turn: a request arrives at clock reading [now], or the query of
    the [i]-th waiting request settles with [r]. *)
Inductive turn : Loop -> Loop -> Prop :=
| turn_hit : forall s now resp,
    listing_begin now (l_cache s) = Some resp ->
    turn s s
| turn_miss : forall s now,
    listing_begin now (l_cache s) = None ->
    turn s {| l_cache := l_cache s;
              l_waiting := l_waiting s ++ [now];
              l_refreshes := l_refreshes s |}
| turn_settle : forall s i now r,
    nth_error (l_waiting s) i = Some now ->
    turn s {| l_cache := fst (listing_resume now r (l_cache s));
              l_waiting := drop_nth i (l_waiting s);
              l_refreshes :=
                match r with
                | Rows result => l_refreshes s ++ [(map member_of result, now)]
                | Failed _ => l_refreshes s
                end |}.

(** The states the process can be in. *)
Inductive reachable : Loop -> Prop :=
| reach_boot : reachable boot
| reach_turn : forall s s', reachable s -> turn s s' -> reachable s'.

(** The cache is as the process started it, or as the last completed
    refresh wrote it. *)
Definition written_whole (s : Loop) : Prop :=
  match rev (l_refreshes s) with
  | [] => l_cache s = cache
  | (p, t) :: _ => l_cache s = stored p t
  end.

(* ================================================================== *)
(** ** The activity endpoints of the sibling revisions *)
(* ================================================================== *)

(** [const minMessages = parseInt(req.query.msg, 10) || 500]. *)
Definition minMessages (msg : Js.value) : Js.num :=
  Js.or_num (Js.parseInt_of msg) (Js.Num 500).

(** [.filter(Boolean)] on handles, then the set of them as an array. *)
Definition coreSet (xhandles : list (option string)) : list string :=
  Js.set_of []
    (flat_map (fun h => match h with
                        | Some x => if Js.truthy_str h then [x] else []
                        | None => []
                        end) xhandles).

(** [GET /api/twitter/core], trailing seven days; [sevenDaysAgo] and
    [today] are the two dates the handler computes from the clock. *)
Definition get_api_twitter_core_window (pool : Pool) (msg : Js.value)
  (sevenDaysAgo today : Z) : M Response :=
  try_catch
    (let min := minMessages msg in
     usersRes <- query (SelWindow sevenDaysAgo today min)
                   (q_window pool sevenDaysAgo today min) ;;
     if (List.length usersRes =? 0)%nat then ret (json (Strings []))
     else
       let validUserIds := map fst usersRes in
       xhandlesRes <- query (SelHandles validUserIds) (q_handles pool validUserIds) ;;
       ret (json (Strings (coreSet xhandlesRes))))
    (fun error => ret (fail 500 "Internal server error")).

(** [GET /api/core/discord]. *)
Definition get_api_core_discord (pool : Pool) (msg : Js.value)
  (sevenDaysAgo today : Z) : M Response :=
  try_catch
    (let min := minMessages msg in
     usersRes <- query (SelWindow sevenDaysAgo today min)
                   (q_window pool sevenDaysAgo today min) ;;
     let validUserIds := map fst usersRes in
     ret (json (Strings validUserIds)))
    (fun error => ret (fail 500 "Internal server error")).

(** [weekMap.get(userId) || 0]. *)
Definition msgWeekAgo (weekMap : Js.jsmap Js.num) (userId : string) : Js.num :=
  match Js.map_get userId weekMap with
  | Some v => Js.or_num v (Js.Num 0)
  | None => Js.Num 0
  end.

(** The loop over [nowMap.entries()] that fills [validUserIds]. *)
Definition validUserIds (nowMap weekMap : Js.jsmap Js.num) (min : Js.num)
  : list string :=
  map fst
    (filter (fun e => Js.gt (Js.sub (snd e) (msgWeekAgo weekMap (fst e))) min)
       nowMap).

(** [new Map(rows.map(r => [r.user_id, parseInt(r.msg, 10)]))]. *)
Definition sums (rows : list Snap.t) : Js.jsmap Js.num :=
  Js.map_of (map (fun r => (Snap.user_id r, Js.parseInt_of (Snap.msg r))) rows).

(** [GET /api/twitter/core], difference of two snapshots. *)
Definition get_api_twitter_core_snapshot (pool : Pool) (msg : Js.value)
  : M Response :=
  try_catch
    (let min := minMessages msg in
     freshSnapRes <- query SelFreshSnapshot (q_fresh_snapshot pool) ;;
     match freshSnapRes with
     | [] => ret (fail 404 "No snapshots found")
     | freshId :: _ =>
         let weekAgoId := freshId - 42 in
         nowRes <- query (SelSnapshot freshId) (q_snapshot pool freshId) ;;
         let nowMap := sums nowRes in
         weekRes <- query (SelSnapshot weekAgoId) (q_snapshot pool weekAgoId) ;;
         let weekMap := sums weekRes in
         let ids := validUserIds nowMap weekMap min in
         if (List.length ids =? 0)%nat then ret (json (Strings []))
         else
           xhandlesRes <- query (SelHandles ids) (q_handles pool ids) ;;
           ret (json (Strings (coreSet xhandlesRes)))
     end)
    (fun error => ret (fail 500 "Internal server error")).

(* ================================================================== *)
(** ** Profile pictures *)
(* ================================================================== *)

(** An object of a [ListObjectsV2] answer; its [Key] may be missing. *)
Record S3Object : Type := mkObject
  { Key : option string }.

(** What [await s3Client.send(command)] does: it answers, with or without
    [Contents], or it throws. *)
Inductive S3Result : Type :=
| Listed : option (list S3Object) -> S3Result
| S3Failed : string -> S3Result.

(** The syntax characters of a regular expression. *)
Definition syntax_char (c : ascii) : bool :=
  existsb (Ascii.eqb c)
    ["^"; "$"; "\"; "."; "*"; "+"; "?"; "("; ")"; "["; "]"; "{"; "}"; "|"]%char.

(** An identity the pattern [^${discordId}-(.+?)\.(.+)$] takes literally,
    character by character. *)
Fixpoint literal (discordId : string) : bool :=
  match discordId with
  | EmptyString => true
  | String c rest => negb (syntax_char c) && literal rest
  end.

(** Every character of [s] is one that [.] matches: none is a line
    terminator (LF, CR, U+2028, U+2029). *)
Fixpoint dot_all (s : string) : bool :=
  match s with
  | EmptyString => true
  | String a r =>
      if ((Js.byte a =? 10) || (Js.byte a =? 13))%N then false
      else
        match r with
        | String b (String c _) =>
            if ((Js.byte a =? 226) && (Js.byte b =? 128)
                && ((Js.byte c =? 168) || (Js.byte c =? 169)))%N
            then false
            else dot_all r
        | _ => dot_all r
        end
  end.

(** The lazy group [(.+?)] after its first character: it stops at the
    first dot that still has something after it. *)
Fixpoint lazy_group (r : string) : option string :=
  match r with
  | EmptyString => None
  | String d r' =>
      if Ascii.eqb d "." && negb (String.eqb r' "") then Some EmptyString
      else
        match lazy_group r' with
        | Some more => Some (String d more)
        | None => None
        end
  end.

(** [filename.match(new RegExp(`^${discordId}-(.+?)\\.(.+)$`))], for a
    [discordId] the pattern takes literally: the first capture, if the
    file name matches. *)
Definition artist_capture (discordId filename : string) : option string :=
  match Js.strip_prefix (discordId ++ "-") filename with
  | None => None
  | Some rest =>
      if dot_all rest then
        match rest with
        | EmptyString => None
        | String c r =>
            match lazy_group r with
            | Some more => Some (String c more)
            | None => None
            end
        end
      else None
  end.

(** [artistNameRaw.replace(/_/g, ' ')]. *)
Fixpoint spaces_for_underscores (s : string) : string :=
  match s with
  | EmptyString => EmptyString
  | String c r =>
      String (if Ascii.eqb c "_" then " "%char else c) (spaces_for_underscores r)
  end.

(** The callback of [.map] in [fetchUserProfilePictures]; [None] is its
    [null].  [publicUrl] is [process.env.R2_PUBLIC_URL]. *)
Definition picture_of (publicUrl : Js.value) (discordId : string) (obj : S3Object)
  : option ProfilePicture :=
  match Key obj with
  | None => None
  | Some key =>
      if negb (Js.truthy_str (Some key)) then None
      else
        let filename := last (Js.split "/" key) EmptyString in
        if negb (Js.truthy_str (Some filename)) then None
        else
          match artist_capture discordId filename with
          | None => None
          | Some artistNameRaw =>
              let name := spaces_for_underscores artistNameRaw in
              Some {| url := Js.to_string publicUrl ++ "/" ++ key;
                      artistName :=
                        if Js.truthy_str (Some name) then name else "Unknown" |}
          end
  end.

(** [fetchUserProfilePictures(discordId)], given what the object store
    does: the pictures of the objects that match, in their order; an
    error gives the empty array. *)
Definition fetchUserProfilePictures (publicUrl : Js.value) (discordId : string)
  (listing : S3Result) : list ProfilePicture :=
  match listing with
  | S3Failed _ => []
  | Listed contents =>
      flat_map (fun obj => match picture_of publicUrl discordId obj with
                           | Some pfp => [pfp]
                           | None => []
                           end)
        (match contents with Some objs => objs | None => [] end)
  end.

(** The handler of [GET /api/discord/pfps/:discordId]; the route puts
    [authenticateApiKey] before it. *)
Definition get_api_discord_pfps (publicUrl : Js.value) (discordId : string)
  (listing : S3Result) : M Response :=
  try_catch
    (let profilePictures := fetchUserProfilePictures publicUrl discordId listing in
     if (List.length profilePictures =? 0)%nat
     then ret (fail 404 "No profile pictures found for this user")
     else ret (json (Pictures profilePictures)))
    (fun error => ret (fail 500 "Failed to fetch profile pictures")).

(* ================================================================== *)
(** ** Which queries the store refused *)
(* ================================================================== *)

Definition is_failed {A} (r : QResult A) : bool :=
  match r with
  | Failed _ => true
  | Rows _ => false
  end.

(** The pool throws on query [q]. *)
Definition refused (pool : Pool) (q : Query) : bool :=
  match q with
  | SelApiKey k => is_failed (q_apikey pool k)
  | SelListing => is_failed (q_listing pool)
  | SelLookup k => is_failed (q_lookup pool k)
  | SelWindow lo hi min => is_failed (q_window pool lo hi min)
  | SelFreshSnapshot => is_failed (q_fresh_snapshot pool)
  | SelSnapshot id => is_failed (q_snapshot pool id)
  | SelHandles ids => is_failed (q_handles pool ids)
  end.

(** A handler run that stops at the first query the store refuses: it
    sends an answer, every query before the last one sent was answered,
    and the answer is a 500 exactly when a query sent was refused. *)
Definition fails_fast (pool : Pool) (out : Outcome Response * World) : Prop :=
  exists resp,
    fst out = Done resp
    /\ Forall (fun q => refused pool q = false) (removelast (w_queries (snd out)))
    /\ (status resp = 500 <-> existsb (refused pool) (w_queries (snd out)) = true).

(* ================================================================== *)
(** ** The model on small inputs *)
(* ================================================================== *)

Example split_examples :
  Js.split ", " "A, B" = ["A"; "B"]
  /\ Js.split ", " "A,B" = ["A,B"]
  /\ Js.split ", " "A, " = ["A"; ""]
  /\ Js.split ", " "" = [""].
Proof. repeat split. Qed.

Example parseInt_examples :
  Js.parseInt "750" = Js.Num 750
  /\ Js.parseInt "  -12ab" = Js.Num (-12)
  /\ Js.parseInt "+5" = Js.Num 5
  /\ Js.parseInt "0" = Js.Num 0
  /\ Js.parseInt "abc" = Js.NaN
  /\ Js.parseInt "- 5" = Js.NaN
  /\ Js.parseInt_of Js.Undefined = Js.NaN
  /\ Js.parseInt_of Js.Null = Js.NaN.
Proof. repeat split. Qed.

Example parseInt_doubles :
  Js.parseInt "9007199254740992" = Js.Num 9007199254740992
  /\ Js.parseInt "9007199254740993" = Js.Num 9007199254740992
  /\ Js.parseInt "9007199254740995" = Js.Num 9007199254740996
  /\ Js.parseInt "-9007199254740993" = Js.Num (-9007199254740992)
  /\ Js.parseInt (String.concat "" (repeat "9" 308)) = Js.of_int (10 ^ 308)
  /\ Js.parseInt (String.concat "" (repeat "9" 400)) = Js.PosInf
  /\ Js.of_int (2 ^ 1024 - 2 ^ 970 - 1) = Js.Num (2 ^ 1024 - 2 ^ 971)
  /\ Js.of_int (2 ^ 1024 - 2 ^ 970) = Js.PosInf
  /\ Js.sub (Js.Num (2 ^ 53)) (Js.Num (-1)) = Js.Num (2 ^ 53)
  /\ minMessages (Js.Str "9007199254740993") = Js.Num 9007199254740992.
Proof. vm_compute. repeat split. Qed.

Example listing_example :
  let tbl := [ Activity.mk "2" (Some "carl") None 5 true;
               Activity.mk "1" (Some "ann") (Some "A, B") 1 true;
               Activity.mk "3" (Some "dan") (Some "C") 9 false;
               Activity.mk "1" (Some "ann") (Some "B") 2 true ] in
  map member_of (Sql.listing tbl)
  = [ {| Member.discordid := "1"; Member.username := Some "ann";
         Member.roles := ["B"] |};
      {| Member.discordid := "2"; Member.username := Some "carl";
         Member.roles := [] |} ].
Proof. reflexivity. Qed.

Example snapshot_example :
  validUserIds
    (sums [Snap.mk "a" (Js.Str "700"); Snap.mk "b" (Js.Str "700");
           Snap.mk "c" Js.Null; Snap.mk "d" (Js.Str "501")])
    (sums [Snap.mk "b" (Js.Str "300"); Snap.mk "d" (Js.Str "1")])
    (minMessages Js.Undefined)
  = ["a"].
Proof. reflexivity. Qed.

(* ================================================================== *)
(** ** Facts about the handler monad and the cache test *)
(* ================================================================== *)

Ltac unfold_handler :=
  unfold run, route, authenticateApiKey, get_api_discord,
    get_api_discord_idusername, try_catch, bind, ret, read_cache, query,
    set_data, set_timestamp, json, fail in *.

(** The cache test, spelled out. *)
Lemma cached_iff (c : Cache) (now : Z) (p : list Member.t) :
  cached c now = Some p <->
  data c = Some p /\
  exists t, timestamp c = Some t /\ t <> 0 /\ now - t < cacheTime c.
Proof.
  unfold cached. destruct (data c) as [d |], (timestamp c) as [t |]; cbn.
  - destruct (Z.eqb_spec t 0) as [E | E]; cbn.
    + split; [discriminate |]. intros [_ (t' & [= <-] & Ht & _)]. contradiction.
    + destruct (Z.ltb_spec (now - t) (cacheTime c)).
      * split.
        -- intros [= <-]. split; [reflexivity |]. exists t. auto.
        -- intros [[= <-] _]. reflexivity.
      * split; [discriminate |]. intros [_ (t' & [= <-] & _ & Hlt)]. lia.
  - split; [discriminate | intros [_ (t' & [=] & _)]].
  - split; [discriminate | intros [[=] _]].
  - split; [discriminate | intros [[=] _]].
Qed.

(** A hit answers from the cache: no query, no write. *)
Lemma get_api_discord_hit (pool : Pool) (now : Z) (w : World) (p : list Member.t) :
  cached (w_cache w) now = Some p ->
  get_api_discord pool now w = (Done (json (Users p)), w).
Proof. intros H. unfold_handler. rewrite H. reflexivity. Qed.

(** A miss sends the listing query and goes on with [listing_resume]. *)
Lemma get_api_discord_miss (pool : Pool) (now : Z) (w : World) :
  cached (w_cache w) now = None ->
  get_api_discord pool now w =
  (Done (snd (listing_resume now (q_listing pool) (w_cache w))),
   {| w_cache := fst (listing_resume now (q_listing pool) (w_cache w));
      w_queries := w_queries w ++ [SelListing] |}).
Proof.
  intros H. unfold_handler. rewrite H. unfold listing_resume.
  destruct (q_listing pool); reflexivity.
Qed.

(** The handler is its two halves, one before and one after the [await]. *)
Lemma get_api_discord_split (pool : Pool) (now : Z) (w : World) :
  get_api_discord pool now w =
  match listing_begin now (w_cache w) with
  | Some resp => (Done resp, w)
  | None =>
      (Done (snd (listing_resume now (q_listing pool) (w_cache w))),
       {| w_cache := fst (listing_resume now (q_listing pool) (w_cache w));
          w_queries := w_queries w ++ [SelListing] |})
  end.
Proof.
  unfold listing_begin. destruct (cached (w_cache w) now) as [p |] eqn:E.
  - now apply get_api_discord_hit.
  - now apply get_api_discord_miss.
Qed.

(** No handler of the listing assigns [cache.cacheTime]. *)
Lemma get_api_discord_cacheTime (pool : Pool) (now : Z) (w : World) :
  cacheTime (w_cache (snd (get_api_discord pool now w))) = cacheTime (w_cache w).
Proof.
  rewrite get_api_discord_split. unfold listing_begin, listing_resume.
  destruct (cached (w_cache w) now); [reflexivity |].
  destruct (q_listing pool); reflexivity.
Qed.

Lemma filter_none {A} (f : A -> bool) (l : list A) :
  (forall x, In x l -> f x = false) -> filter f l = [].
Proof.
  induction l as [| x l IH]; intros H; cbn; [reflexivity |].
  rewrite (H x (or_introl eq_refl)). apply IH. intros y Hy. apply H. now right.
Qed.

(** The middleware does the same from every state of the process: it
    sends at most one query, the validation of the key, never touches the
    cache, and answers or calls [next()]. *)
Lemma authenticateApiKey_frame (pool : Pool) (apiKey : option string) :
  exists a qs,
    Forall (fun q => exists k, apiKey = Some k /\ q = SelApiKey k) qs
    /\ (List.length qs <= 1)%nat
    /\ forall w,
         authenticateApiKey pool apiKey w
         = (Done a, {| w_cache := w_cache w; w_queries := w_queries w ++ qs |}).
Proof.
  destruct apiKey as [[| a k] |].
  - exists (Sent (fail 401 "API key is required")), [].
    split; [constructor | split; [cbn; lia |]].
    intros [c qs0]. unfold_handler. cbn. now rewrite app_nil_r.
  - destruct (q_apikey pool (String a k)) as [[| row rows] | e] eqn:Q;
      [exists (Sent (fail 401 "Invalid API key")), [SelApiKey (String a k)]
      | exists Next, [SelApiKey (String a k)]
      | exists (Sent (fail 500 "Authentication error")), [SelApiKey (String a k)]];
      (split; [repeat constructor; eauto | split; [cbn; lia |]]);
      intros [c qs0]; unfold_handler; cbn; rewrite Q; reflexivity.
  - exists (Sent (fail 401 "API key is required")), [].
    split; [constructor | split; [cbn; lia |]].
    intros [c qs0]. unfold_handler. cbn. now rewrite app_nil_r.
Qed.

(** The route, given what the middleware does. *)
Lemma route_after (pool : Pool) (apiKey : option string) (handler : M Response)
  (a : Auth) (w w' : World) :
  authenticateApiKey pool apiKey w = (Done a, w') ->
  route pool apiKey handler w
  = match a with
    | Sent r => (Done r, w')
    | Next => handler w'
    end.
Proof.
  intros E. unfold route, bind. rewrite E. destruct a; reflexivity.
Qed.

(** Past the middleware: with a key the table holds, the route is the
    handler, run after the validation query. *)
Lemma route_next (pool : Pool) (k row : string) (rows : list string)
  (handler : M Response) (w : World) :
  k <> "" ->
  q_apikey pool k = Rows (row :: rows) ->
  route pool (Some k) handler w
  = handler {| w_cache := w_cache w; w_queries := w_queries w ++ [SelApiKey k] |}.
Proof.
  intros Hk Q. destruct k as [| a k]; [now elim Hk |].
  destruct w as [c qs0]. unfold_handler. cbn. rewrite Q. reflexivity.
Qed.

Lemma serve_all_cons (pool : Pool) (apiKey : option string) (now : Z)
  (requests : list (option string * Z)) (w : World) :
  serve_all pool ((apiKey, now) :: requests) w
  = (fst (route pool apiKey (get_api_discord pool now) w)
       :: fst (serve_all pool requests
                 (snd (route pool apiKey (get_api_discord pool now) w))),
     snd (serve_all pool requests
            (snd (route pool apiKey (get_api_discord pool now) w)))).
Proof.
  cbn [serve_all].
  destruct (route pool apiKey (get_api_discord pool now) w) as [r w1]. cbn [fst snd].
  destruct (serve_all pool requests w1) as [rs w2]. reflexivity.
Qed.

(** The listing requests send validations of keys and the listing query,
    nothing else. *)
Lemma serve_all_sends (pool : Pool) (requests : list (option string * Z))
  (w : World) :
  Forall (fun q => is_listing q = true \/ exists k, q = SelApiKey k) (w_queries w) ->
  Forall (fun q => is_listing q = true \/ exists k, q = SelApiKey k)
    (w_queries (snd (serve_all pool requests w))).
Proof.
  revert w. induction requests as [| [apiKey now] tl IH]; intros w H; [exact H |].
  rewrite serve_all_cons. cbn [snd]. apply IH.
  destruct (authenticateApiKey_frame pool apiKey) as (a & qs & Keys & _ & E).
  rewrite (route_after pool apiKey _ a w _ (E w)).
  assert (H' : Forall (fun q => is_listing q = true \/ exists k, q = SelApiKey k)
                 (w_queries w ++ qs)).
  { apply Forall_app. split; [exact H |].
    eapply Forall_impl; [| exact Keys]. intros q (k & _ & ->). right. eauto. }
  destruct a as [r |]; [exact H' |].
  rewrite get_api_discord_split. cbn [w_cache w_queries].
  destruct (listing_begin now (w_cache w)); cbn [snd w_queries]; [exact H' |].
  apply Forall_app. split; [exact H' |]. constructor; [now left | constructor].
Qed.

(** Requests within the window of the entry are answered with its payload
    (or by the middleware), leave the cache as it was and send no listing
    query. *)
Lemma serve_all_fresh (pool : Pool) (requests : list (option string * Z))
  (p : list Member.t) (t : Z) (w : World) :
  data (w_cache w) = Some p -> timestamp (w_cache w) = Some t -> t <> 0 ->
  Forall (fun req => snd req - t < cacheTime (w_cache w)) requests ->
  fst (serve_all pool requests w)
  = map (fun req => fst (run (route pool (fst req) (ret (json (Users p)))) cache))
      requests
  /\ w_cache (snd (serve_all pool requests w)) = w_cache w
  /\ filter is_listing (w_queries (snd (serve_all pool requests w)))
     = filter is_listing (w_queries w)
  /\ (List.length (w_queries (snd (serve_all pool requests w)))
      <= List.length (w_queries w) + List.length requests)%nat.
Proof.
  intros Hd Ht Hz Hall. revert w Hd Ht Hall.
  induction requests as [| [apiKey now] tl IH]; intros w Hd Ht Hall.
  - cbn. repeat split. lia.
  - inversion Hall as [| ? ? Hnow Htl]; subst. cbn [snd] in Hnow.
    rewrite serve_all_cons. cbn [fst snd map].
    destruct (authenticateApiKey_frame pool apiKey) as (a & qs & Keys & Len & E).
    set (w1 := {| w_cache := w_cache w; w_queries := w_queries w ++ qs |}).
    assert (R : route pool apiKey (get_api_discord pool now) w
                = (fst (run (route pool apiKey (ret (json (Users p)))) cache), w1)).
    { rewrite (route_after pool apiKey _ a w _ (E w)).
      unfold run. rewrite (route_after pool apiKey _ a _ _ (E _)).
      destruct a as [r |]; [reflexivity |]. fold w1.
      rewrite (get_api_discord_hit pool now w1 p); [reflexivity |].
      apply cached_iff. split; [exact Hd |]. exists t. auto. }
    rewrite R. cbn [fst snd].
    destruct (IH w1) as (A & C & F & L); try assumption.
    assert (NL : filter is_listing qs = []).
    { apply filter_none. rewrite Forall_forall in Keys.
      intros q Hq. destruct (Keys q Hq) as (k & _ & ->). reflexivity. }
    split; [now rewrite A | split; [exact C | split]].
    + rewrite F. cbn [w1 w_queries]. now rewrite filter_app, NL, app_nil_r.
    + cbn [w1 w_queries] in L. rewrite List.length_app in L. cbn [List.length]. lia.
Qed.

(* ================================================================== *)
(** ** The listing cache *)
(* ================================================================== *)

(** Requests with one key the table holds, all within the window of the
    entry: each is answered with the payload, and nothing is sent but the
    validations of the key. *)
Lemma serve_all_hits (pool : Pool) (k row : string) (rows : list string)
  (requests : list (option string * Z)) (p : list Member.t) (t : Z) (w : World) :
  k <> "" ->
  q_apikey pool k = Rows (row :: rows) ->
  data (w_cache w) = Some p -> timestamp (w_cache w) = Some t -> t <> 0 ->
  Forall (fun req => fst req = Some k /\ snd req - t < cacheTime (w_cache w))
    requests ->
  serve_all pool requests w
  = (map (fun _ => Done (json (Users p))) requests,
     {| w_cache := w_cache w;
        w_queries := w_queries w ++ map (fun _ => SelApiKey k) requests |}).
Proof.
  intros Hk Q Hd Ht Hz Hall. revert w Hd Ht Hall.
  induction requests as [| [apiKey now] tl IH]; intros w Hd Ht Hall.
  - cbn. rewrite app_nil_r. now destruct w.
  - inversion Hall as [| ? ? [Hkey Hnow] Htl]; subst. cbn [fst snd] in *. subst apiKey.
    cbn [serve_all]. rewrite (route_next pool k row rows _ w Hk Q).
    rewrite (get_api_discord_hit pool now _ p).
    + rewrite IH by assumption. cbn [w_cache w_queries map].
      now rewrite <- app_assoc.
    + apply cached_iff. split; [exact Hd |]. exists t. auto.
Qed.

(** X11: a request to the listing endpoint with a key the table holds, at
    clock reading [now], is answered with the stored payload, unchanged
    and with no query but the validation of the key, if and only if a
    payload is present, a timestamp is present and is not 0 (the handler
    tests it for truthiness), and [now - timestamp < cacheTime]; in every
    other case the listing query is sent.  [cacheTime] is 300000 and no
    request changes it.  A listing stored at 1000 is served at 1000 and at
    300999 and is a miss at 301000. *)
Theorem listing_read_hit_iff (pool : Pool) (k row : string) (rows : list string)
  (c : Cache) (now : Z) :
  k <> "" ->
  q_apikey pool k = Rows (row :: rows) ->
  let request :=
    fun now c => run (route pool (Some k) (get_api_discord pool now)) c in
  let fresh :=
    fun p => data c = Some p /\
             exists t, timestamp c = Some t /\ t <> 0 /\ now - t < cacheTime c in
  (forall p,
     request now c
       = (Done (json (Users p)), {| w_cache := c; w_queries := [SelApiKey k] |})
     <-> fresh p)
  /\ ((forall p, ~ fresh p) ->
      w_queries (snd (request now c)) = [SelApiKey k; SelListing])
  /\ cacheTime cache = 300000
  /\ cacheTime (w_cache (snd (request now c))) = cacheTime c
  /\ (forall l,
        request 1000 (stored l 1000)
          = (Done (json (Users l)),
             {| w_cache := stored l 1000; w_queries := [SelApiKey k] |})
        /\ request 300999 (stored l 1000)
          = (Done (json (Users l)),
             {| w_cache := stored l 1000; w_queries := [SelApiKey k] |})
        /\ w_queries (snd (request 301000 (stored l 1000)))
           = [SelApiKey k; SelListing]).
Proof.
  intros Hk Q. cbv beta zeta.
  assert (R : forall now c,
            run (route pool (Some k) (get_api_discord pool now)) c
            = get_api_discord pool now {| w_cache := c; w_queries := [SelApiKey k] |}).
  { intros now' c'. unfold run. now rewrite (route_next pool k row rows _ _ Hk Q). }
  rewrite !R.
  split; [| split; [| split; [| split]]].
  - intros p. rewrite <- cached_iff. split.
    + intros H. destruct (cached c now) as [d |] eqn:E.
      * rewrite (get_api_discord_hit pool now (mkWorld c [SelApiKey k]) d E) in H.
        unfold json in H. now inversion H.
      * rewrite (get_api_discord_miss pool now (mkWorld c [SelApiKey k]) E) in H.
        inversion H.
    + intros H. now apply get_api_discord_hit.
  - intros H. destruct (cached c now) as [d |] eqn:E.
    + apply cached_iff in E. now elim (H d).
    + now rewrite (get_api_discord_miss pool now (mkWorld c [SelApiKey k]) E).
  - reflexivity.
  - now rewrite get_api_discord_cacheTime.
  - intros l. rewrite !R. split; [reflexivity | split; [reflexivity |]].
    now rewrite (get_api_discord_miss pool 301000
                   (mkWorld (stored l 1000) [SelApiKey k]) eq_refl).
Qed.

Lemma listing_read_hit_iff_witness :
  let db := {| channel_activity := []; apikeys := ["k"]; messages_data := [] |} in
  let pool := pool_of_db db (pool_down "down") in
  run (route pool (Some "k") (get_api_discord pool 300999)) (stored [] 1000)
  = (Done (json (Users [])),
     {| w_cache := stored [] 1000; w_queries := [SelApiKey "k"] |}).
Proof.
  cbv zeta.
  assert (Hk : "k" <> "") by discriminate.
  apply (proj1 (listing_read_hit_iff
                  (pool_of_db {| channel_activity := []; apikeys := ["k"];
                                 messages_data := [] |} (pool_down "down"))
                  "k" "k" [] (stored [] 1000) 300999 Hk eq_refl)).
  split; [reflexivity |]. exists 1000.
  split; [reflexivity | split; [discriminate | reflexivity]].
Defined.

(** C1: a listing stored with timestamp 0 is not served.  The handler
    tests [cache.timestamp] for truthiness, so the entry that a refresh
    stores when the clock reads 0 counts as absent: a payload and a
    timestamp are present and [5 - 0 < 300000], yet the request at clock
    reading 5 is a miss; the listing query is sent, the answer is the
    listing of the store and not the stored payload, and the entry is
    overwritten. *)
Lemma timestamp_zero_read_misses :
  let ann := Activity.mk "1" (Some "ann") (Some "A") 3 true in
  let bob := Activity.mk "2" (Some "bob") (Some "B") 4 true in
  let before := pool_of_db {| channel_activity := [ann]; apikeys := ["k"];
                              messages_data := [] |} (pool_down "down") in
  let pool := pool_of_db {| channel_activity := [bob]; apikeys := ["k"];
                            messages_data := [] |} (pool_down "down") in
  let payload := [member_of (Sql.project ann)] in
  let c := stored payload 0 in
  w_cache (snd (run (route before (Some "k") (get_api_discord before 0)) cache)) = c
  /\ data c = Some payload
  /\ timestamp c = Some 0
  /\ cacheTime c = 300000
  /\ 5 - 0 < cacheTime c
  /\ cached c 5 = None
  /\ run (route pool (Some "k") (get_api_discord pool 5)) c
     = (Done (json (Users [member_of (Sql.project bob)])),
        {| w_cache := stored [member_of (Sql.project bob)] 5;
           w_queries := [SelApiKey "k"; SelListing] |}).
Proof. cbv zeta. repeat split. Qed.

(** C2: when the refresh query fails, the handler answers 500, the cache
    object is left as it was (payload, timestamp and TTL), and every later
    read of the cache gives what it gave before; the same holds for the
    turn of the event loop in which the failed query settles. *)
Theorem failed_refresh_keeps_cache (pool : Pool) (c : Cache) (now : Z) (e : string) :
  cached c now = None ->
  q_listing pool = Failed e ->
  run (get_api_discord pool now) c
    = (Done (fail 500 "Failed to fetch all users"),
       {| w_cache := c; w_queries := [SelListing] |})
  /\ listing_resume now (Failed e) c = (c, fail 500 "Failed to fetch all users")
  /\ (forall now',
        cached (w_cache (snd (run (get_api_discord pool now) c))) now'
        = cached c now').
Proof.
  intros Hmiss Hq.
  assert (R : run (get_api_discord pool now) c
              = (Done (fail 500 "Failed to fetch all users"),
                 {| w_cache := c; w_queries := [SelListing] |})).
  { unfold run. rewrite get_api_discord_miss by exact Hmiss.
    rewrite Hq. reflexivity. }
  split; [exact R | split; [reflexivity |]].
  intros now'. rewrite R. reflexivity.
Qed.

Lemma failed_refresh_keeps_cache_witness :
  cached cache 1000 = None
  /\ q_listing (pool_down "down") = Failed "down"
  /\ run (get_api_discord (pool_down "down") 1000) cache
     = (Done (fail 500 "Failed to fetch all users"),
        {| w_cache := cache; w_queries := [SelListing] |}).
Proof.
  split; [reflexivity | split; [reflexivity |]].
  apply (failed_refresh_keeps_cache (pool_down "down") cache 1000 "down");
    reflexivity.
Defined.



(** C3: an empty listing stored with timestamp 0 is not served.  The
    store returns no row; the first request, at clock reading 0, stores
    the empty listing with timestamp 0; the second request, at clock
    reading 5 and well inside the window, is not served from the cache:
    the timestamp 0 is falsy in the test of the handler, so the listing
    query is sent again and the entry is stored anew. *)
Lemma empty_listing_stored_at_zero_misses :
  let pool := pool_of_db {| channel_activity := []; apikeys := ["k"];
                            messages_data := [] |} (pool_down "down") in
  q_listing pool = Rows []
  /\ run (route pool (Some "k") (get_api_discord pool 0)) cache
     = (Done (json (Users [])),
        {| w_cache := stored [] 0; w_queries := [SelApiKey "k"; SelListing] |})
  /\ 5 - 0 < cacheTime (stored [] 0)
  /\ cached (stored [] 0) 5 = None
  /\ serve_all pool [(Some "k", 0); (Some "k", 5)]
       {| w_cache := cache; w_queries := [] |}
     = ([Done (json (Users [])); Done (json (Users []))],
        {| w_cache := stored [] 5;
           w_queries := [SelApiKey "k"; SelListing; SelApiKey "k"; SelListing] |}).
Proof. cbv zeta. repeat split. Qed.

(** X13: when the entry is within its window and its timestamp is not 0,
    any number of requests at clock readings within the window leave the
    cache object as it was and send no listing query; each is answered by
    the middleware or with the payload, and requests with a key the table
    holds are all answered with the payload, the validations of the key
    being the only queries sent. *)
Theorem reads_within_ttl_are_idempotent (pool : Pool) (c : Cache)
  (p : list Member.t) (t : Z) (requests : list (option string * Z)) :
  data c = Some p ->
  timestamp c = Some t ->
  t <> 0 ->
  Forall (fun req => snd req - t < cacheTime c) requests ->
  let served := serve_all pool requests {| w_cache := c; w_queries := [] |} in
  w_cache (snd served) = c
  /\ filter is_listing (w_queries (snd served)) = []
  /\ fst served
     = map (fun req => fst (run (route pool (fst req) (ret (json (Users p)))) cache))
         requests
  /\ (forall k row rows,
        k <> "" ->
        q_apikey pool k = Rows (row :: rows) ->
        Forall (fun req => fst req = Some k) requests ->
        served = (map (fun _ => Done (json (Users p))) requests,
                  {| w_cache := c;
                     w_queries := map (fun _ => SelApiKey k) requests |})).
Proof.
  intros Hd Ht Hz Hall. cbv zeta.
  destruct (serve_all_fresh pool requests p t (mkWorld c []) Hd Ht Hz Hall)
    as (A & C & F & _).
  split; [exact C | split; [exact F | split; [exact A |]]].
  intros k row rows Hk Q Keys.
  rewrite (serve_all_hits pool k row rows requests p t (mkWorld c []) Hk Q Hd Ht Hz);
    [reflexivity |].
  rewrite Forall_forall in *. intros req Hin. split; [now apply Keys | now apply Hall].
Qed.

Lemma reads_within_ttl_are_idempotent_witness :
  let pool := pool_of_db {| channel_activity := []; apikeys := ["k"];
                            messages_data := [] |} (pool_down "down") in
  serve_all pool [(Some "k", 1000); (Some "k", 2000); (Some "k", 300999)]
    {| w_cache := stored [] 1000; w_queries := [] |}
  = ([Done (json (Users [])); Done (json (Users [])); Done (json (Users []))],
     {| w_cache := stored [] 1000;
        w_queries := [SelApiKey "k"; SelApiKey "k"; SelApiKey "k"] |}).
Proof.
  cbv zeta.
  refine (proj2 (proj2 (proj2
            (reads_within_ttl_are_idempotent
               (pool_of_db {| channel_activity := []; apikeys := ["k"];
                              messages_data := [] |} (pool_down "down"))
               (stored [] 1000) [] 1000
               [(Some "k", 1000); (Some "k", 2000); (Some "k", 300999)]
               eq_refl eq_refl _ _))) "k" "k" [] _ eq_refl _);
    try discriminate; repeat constructor.
Defined.

(** C6: a read within the window of an entry with timestamp 0 mutates
    the cache.  The entry is within its window at clock reading 5, yet
    the timestamp 0 is falsy in the test of the handler, so the listing
    query is sent, and payload and timestamp are both overwritten; only
    the next request is served from the cache. *)
Lemma read_at_timestamp_zero_refreshes :
  let ann := Activity.mk "1" (Some "ann") (Some "A") 3 true in
  let bob := Activity.mk "2" (Some "bob") (Some "B") 4 true in
  let pool := pool_of_db {| channel_activity := [bob]; apikeys := ["k"];
                            messages_data := [] |} (pool_down "down") in
  let c := stored [member_of (Sql.project ann)] 0 in
  let served := serve_all pool [(Some "k", 5); (Some "k", 6)]
                  {| w_cache := c; w_queries := [] |} in
  timestamp c = Some 0
  /\ 5 - 0 < cacheTime c
  /\ 6 - 0 < cacheTime c
  /\ w_cache (snd served) = stored [member_of (Sql.project bob)] 5
  /\ data (w_cache (snd served)) = Some [member_of (Sql.project bob)]
  /\ timestamp (w_cache (snd served)) = Some 5
  /\ w_queries (snd served) = [SelApiKey "k"; SelListing; SelApiKey "k"]
  /\ fst served = [Done (json (Users [member_of (Sql.project bob)]));
                   Done (json (Users [member_of (Sql.project bob)]))].
Proof. cbv zeta. repeat split. Qed.

(* ================================================================== *)
(** ** The lookup and the API-key middleware *)
(* ================================================================== *)

(** C7: the single-record lookup answers 200 with the member of the first
    row when the query yields a row, 404 when it yields none, 500 when the
    query throws; so a 404 is sent only for an empty result and a 500 only
    for a failed query. *)
Theorem lookup_answers (pool : Pool) (idusername : string) (c : Cache) :
  let answer := fst (run (get_api_discord_idusername pool idusername) c) in
  (forall user rest, q_lookup pool idusername = Rows (user :: rest) ->
     answer = Done (json (User (member_of user))))
  /\ (q_lookup pool idusername = Rows [] ->
      answer = Done (fail 404 "User not found"))
  /\ (forall e, q_lookup pool idusername = Failed e ->
      answer = Done (fail 500 "Failed to fetch user"))
  /\ (forall r, answer = Done r ->
      (status r = 404 <-> q_lookup pool idusername = Rows [])
      /\ (status r = 500 <-> exists e, q_lookup pool idusername = Failed e)
      /\ (status r = 200 <->
          exists user rest, q_lookup pool idusername = Rows (user :: rest)))
  /\ snd (run (get_api_discord_idusername pool idusername) c)
     = {| w_cache := c; w_queries := [SelLookup idusername] |}.
Proof.
  cbv zeta. unfold_handler. cbn.
  destruct (q_lookup pool idusername) as [[| user rest] | e]; cbn.
  - split; [discriminate | split; [reflexivity | split; [discriminate | split]]];
      [| reflexivity].
    intros r [= <-]. cbn. split; [| split].
    + split; reflexivity.
    + split; [discriminate | intros (e & E); discriminate].
    + split; [discriminate | intros (u & l & E); discriminate].
  - split; [| split; [discriminate | split; [discriminate | split]]];
      [| | reflexivity].
    + intros user0 rest0 [= <- <-]. reflexivity.
    + intros r [= <-]. cbn. split; [| split].
      * split; discriminate.
      * split; [discriminate | intros (e & E); discriminate].
      * split; [eauto | reflexivity].
  - split; [discriminate | split; [discriminate | split; [reflexivity | split]]];
      [| reflexivity].
    intros r [= <-]. cbn. split; [| split].
    + split; discriminate.
    + split; [eauto | reflexivity].
    + split; [discriminate | intros (u & l & E); discriminate].
Qed.

(** C8: without an [x-api-key] header the route answers 401 and neither
    the store nor the cache is touched; with a key the table does not hold
    it answers 401; when the validation query is sent and throws it
    answers 500; and the endpoint handler runs exactly when the query
    yields a row, which for a healthy store means the key is in the
    table: in every other case the answer and the state do not depend on
    the handler. *)
Theorem api_key_gate (pool : Pool) (handler : M Response) (c : Cache) :
  run (route pool None handler) c
    = (Done (fail 401 "API key is required"), {| w_cache := c; w_queries := [] |})
  /\ (forall k, q_apikey pool k = Rows [] ->
        exists msg qs,
          run (route pool (Some k) handler) c
          = (Done (fail 401 msg), {| w_cache := c; w_queries := qs |}))
  /\ (forall k e,
        In (SelApiKey k) (w_queries (snd (run (authenticateApiKey pool (Some k)) c))) ->
        q_apikey pool k = Failed e ->
        run (route pool (Some k) handler) c
        = (Done (fail 500 "Authentication error"),
           {| w_cache := c; w_queries := [SelApiKey k] |}))
  /\ (forall apiKey,
        fst (run (authenticateApiKey pool apiKey) c) = Done Next
        <-> exists k row rows,
              apiKey = Some k /\ k <> "" /\ q_apikey pool k = Rows (row :: rows))
  /\ (forall apiKey k, apiKey = Some k ->
        fst (run (authenticateApiKey pool apiKey) c) = Done Next ->
        run (route pool apiKey handler) c
        = handler {| w_cache := c; w_queries := [SelApiKey k] |})
  /\ (forall apiKey,
        fst (run (authenticateApiKey pool apiKey) c) <> Done Next ->
        forall other : M Response,
          run (route pool apiKey handler) c = run (route pool apiKey other) c)
  /\ (forall db rest apiKey,
        fst (run (authenticateApiKey (pool_of_db db rest) apiKey) c) = Done Next
        -> exists k, apiKey = Some k /\ In k (apikeys db))
  /\ (forall db rest k, ~ In k (apikeys db) ->
        exists msg qs,
          run (route (pool_of_db db rest) (Some k) handler) c
          = (Done (fail 401 msg), {| w_cache := c; w_queries := qs |})).
Proof.
  assert (Refused : forall pl k, q_apikey pl k = Rows [] ->
            exists msg qs,
              run (route pl (Some k) handler) c
              = (Done (fail 401 msg), {| w_cache := c; w_queries := qs |})).
  { intros pl [| a k] Q.
    - exists "API key is required", []. reflexivity.
    - exists "Invalid API key", [SelApiKey (String a k)].
      unfold_handler. cbn. rewrite Q. reflexivity. }
  assert (Gate : forall pl apiKey,
            fst (run (authenticateApiKey pl apiKey) c) = Done Next
            <-> exists k row rows,
                  apiKey = Some k /\ k <> "" /\ q_apikey pl k = Rows (row :: rows)).
  { intros pl [[| a k] |]; unfold_handler; cbn.
    - split; [discriminate | intros (k & _ & _ & [= <-] & N & _); now elim N].
    - destruct (q_apikey pl (String a k)) as [[| row rows] | e] eqn:Q; cbn.
      + split; [discriminate |]. intros (k' & ? & ? & [= <-] & _ & Q').
        rewrite Q in Q'. discriminate.
      + split; [| reflexivity]. intros _. exists (String a k), row, rows.
        repeat split; [discriminate | exact Q].
      + split; [discriminate |]. intros (k' & ? & ? & [= <-] & _ & Q').
        rewrite Q in Q'. discriminate.
    - split; [discriminate | intros (k & _ & _ & [=] & _)]. }
  split; [reflexivity | split; [apply Refused |]].
  split; [| split; [apply Gate | split; [| split; [| split]]]].
  - intros [| a k] e Hin Q.
    + cbn in Hin. contradiction.
    + unfold_handler. cbn. rewrite Q. reflexivity.
  - intros apiKey k -> HN. apply Gate in HN.
    destruct HN as (k' & row & rows & [= <-] & Hk & Q).
    destruct k as [| a k]; [now elim Hk |].
    unfold_handler. cbn. rewrite Q. reflexivity.
  - intros [[| a k] |] HN other; try reflexivity.
    unfold_handler. cbn in *.
    destruct (q_apikey pool (String a k)) as [[| row rows] | e]; cbn in *;
      try reflexivity. now elim HN.
  - intros db rest apiKey HN. apply Gate in HN.
    destruct HN as (k & row & rows & -> & _ & Q).
    exists k. split; [reflexivity |].
    cbn in Q. injection Q as Q.
    assert (Hin : In row (Sql.apikey (apikeys db) k)) by (rewrite Q; now left).
    unfold Sql.apikey in Hin. apply filter_In in Hin. destruct Hin as [Hin E].
    apply String.eqb_eq in E. now subst.
  - intros db rest k Hk. apply Refused. cbn. f_equal. unfold Sql.apikey.
    destruct (filter (String.eqb k) (apikeys db)) as [| row rows] eqn:F;
      [reflexivity |].
    assert (Hin : In row (filter (String.eqb k) (apikeys db)))
      by (rewrite F; now left).
    apply filter_In in Hin. destruct Hin as [Hin E].
    apply String.eqb_eq in E. subst. contradiction.
Qed.

(* ================================================================== *)
(** ** Splitting a role string *)
(* ================================================================== *)

Section SplitFacts.

Variable sep : string.

Lemma length_app (a b : string) :
  String.length (a ++ b) = (String.length a + String.length b)%nat.
Proof. induction a as [| c a IH]; cbn; [reflexivity | now rewrite IH]. Qed.

Lemma strip_prefix_app (p s r : string) :
  Js.strip_prefix p s = Some r -> s = p ++ r.
Proof.
  revert s. induction p as [| a p IH]; intros s H; cbn in *.
  - now injection H as ->.
  - destruct s as [| b s]; [discriminate |].
    destruct (Ascii.eqb_spec a b) as [-> | _]; [| discriminate].
    cbn. f_equal. now apply IH.
Qed.

(** A prefix of [a] is a prefix of [a ++ y]. *)
Lemma strip_prefix_extend (p a r y : string) :
  Js.strip_prefix p a = Some r -> Js.strip_prefix p (a ++ y) = Some (r ++ y).
Proof.
  revert a. induction p as [| c p IH]; intros a H; cbn in *.
  - now injection H as ->.
  - destruct a as [| b a]; [discriminate |]. cbn.
    destruct (Ascii.eqb c b); [now apply IH | discriminate].
Qed.

(** [cut] splits [s] around an occurrence of the separator. *)
Lemma cut_app (s before rest : string) :
  Js.cut sep s = Some (before, rest) -> s = before ++ sep ++ rest.
Proof.
  revert before rest. induction s as [| c s IH]; intros before rest H.
  - cbn in H. destruct (Js.strip_prefix sep "") as [r |] eqn:P; [| discriminate].
    injection H as <- <-. cbn. now apply strip_prefix_app.
  - cbn [Js.cut] in H.
    destruct (Js.strip_prefix sep (String c s)) as [r |] eqn:P.
    + injection H as <- <-. cbn. now apply strip_prefix_app.
    + destruct (Js.cut sep s) as [[b r] |] eqn:C; [| discriminate].
      injection H as <- <-. cbn. f_equal. now apply IH.
Qed.

(** The occurrence [cut] finds is the first one. *)
Lemma cut_before (s before rest : string) :
  sep <> "" -> Js.cut sep s = Some (before, rest) -> Js.cut sep before = None.
Proof.
  intros Hsep. revert before rest.
  assert (E : Js.cut sep "" = None).
  { destruct sep; [now elim Hsep | reflexivity]. }
  induction s as [| c s IH]; intros before rest H.
  - rewrite E in H. discriminate.
  - cbn [Js.cut] in H.
    destruct (Js.strip_prefix sep (String c s)) as [r |] eqn:P.
    + injection H as <- <-. exact E.
    + destruct (Js.cut sep s) as [[b r] |] eqn:C; [| discriminate].
      injection H as <- <-. cbn [Js.cut].
      destruct (Js.strip_prefix sep (String c b)) as [x |] eqn:P'.
      * apply (strip_prefix_extend _ _ _ (sep ++ r)) in P'.
        apply cut_app in C. cbn in P'. rewrite <- C in P'. congruence.
      * now rewrite (IH b r eq_refl).
Qed.

Lemma cut_shrinks (s before rest : string) :
  sep <> "" -> Js.cut sep s = Some (before, rest) ->
  (String.length rest < String.length s)%nat.
Proof.
  intros Hsep H. apply cut_app in H. subst s. rewrite !length_app.
  destruct sep; [now elim Hsep | cbn; lia].
Qed.

Lemma split_from_nonempty (n : nat) (s : string) : Js.split_from n sep s <> [].
Proof.
  destruct n; cbn; [discriminate |].
  destruct (Js.cut sep s) as [[b r] |]; discriminate.
Qed.

Lemma join_cons (x : string) (l : list string) :
  l <> [] -> Js.join sep (x :: l) = x ++ sep ++ Js.join sep l.
Proof. destruct l; [intros H; now elim H | reflexivity]. Qed.

(** Joining the pieces with the separator gives the string back. *)
Lemma join_split_from (n : nat) (s : string) :
  Js.join sep (Js.split_from n sep s) = s.
Proof.
  revert s. induction n as [| n IH]; intros s; cbn; [reflexivity |].
  destruct (Js.cut sep s) as [[b r] |] eqn:C; [| reflexivity].
  rewrite join_cons by apply split_from_nonempty.
  rewrite IH. symmetry. now apply cut_app.
Qed.

(** The length of the string is fuel enough: more fuel changes nothing. *)
Lemma split_fuel_enough (n : nat) (s : string) :
  sep <> "" -> (String.length s <= n)%nat ->
  Js.split_from n sep s = Js.split sep s.
Proof.
  intros Hsep. unfold Js.split.
  assert (G : forall n m s, (String.length s <= n)%nat -> (String.length s <= m)%nat ->
                            Js.split_from n sep s = Js.split_from m sep s).
  { clear n s. induction n as [| n IH]; intros m s Hn Hm.
    - destruct s; [| cbn in Hn; lia].
      destruct m; [reflexivity |]. cbn.
      destruct sep; [now elim Hsep | reflexivity].
    - destruct m as [| m].
      + destruct s; [| cbn in Hm; lia]. cbn.
        destruct sep; [now elim Hsep | reflexivity].
      + cbn. destruct (Js.cut sep s) as [[b r] |] eqn:C; [| reflexivity].
        f_equal. pose proof (cut_shrinks _ _ _ Hsep C). apply IH; lia. }
  intros H. apply G; [exact H | lia].
Qed.

(** No piece holds the separator. *)
Lemma split_pieces (s : string) :
  sep <> "" -> Forall (fun piece => Js.cut sep piece = None) (Js.split sep s).
Proof.
  intros Hsep. unfold Js.split.
  assert (G : forall n s, (String.length s <= n)%nat ->
                          Forall (fun piece => Js.cut sep piece = None)
                            (Js.split_from n sep s)).
  { clear s. induction n as [| n IH]; intros s Hn.
    - destruct s; [| cbn in Hn; lia]. constructor; [| constructor].
      destruct sep; [now elim Hsep | reflexivity].
    - cbn. destruct (Js.cut sep s) as [[b r] |] eqn:C.
      + constructor; [now apply (cut_before s b r) |].
        pose proof (cut_shrinks _ _ _ Hsep C). apply IH. lia.
      + constructor; [exact C | constructor]. }
  apply G. lia.
Qed.

End SplitFacts.

(** C4: the role string ["A, B"] gives the two labels [A] and [B]; an
    absent or an empty role string gives no label; no role string gives
    the one-element list holding the empty string; in general the labels
    of a non-empty role string are its pieces between the separators
    (joined by [", "] they give the string back, and none holds [", "];
    the split never runs out of fuel); and these are the roles of the
    member answered for a row, in the listing and in the lookup. *)
Theorem roles_decomposition :
  roles_of (Some "A, B") = ["A"; "B"]
  /\ roles_of None = []
  /\ roles_of (Some "") = []
  /\ (forall r, roles_of r <> [""])
  /\ (forall s, s <> "" ->
        Js.join ", " (roles_of (Some s)) = s
        /\ Forall (fun label => Js.cut ", " label = None) (roles_of (Some s)))
  /\ (forall s n, (String.length s <= n)%nat ->
        Js.split_from n ", " s = Js.split ", " s)
  /\ (forall user, Member.roles (member_of user) = roles_of (Row.roles user))
  /\ (forall pool now rows,
        cached cache now = None -> q_listing pool = Rows rows ->
        fst (run (get_api_discord pool now) cache)
        = Done (json (Users (map member_of rows))))
  /\ (forall pool k user rest,
        q_lookup pool k = Rows (user :: rest) ->
        fst (run (get_api_discord_idusername pool k) cache)
        = Done (json (User (member_of user)))).
Proof.
  assert (T : forall s, s <> "" -> roles_of (Some s) = Js.split ", " s).
  { intros [| a s] H; [now elim H | reflexivity]. }
  repeat split; try reflexivity.
  - intros [[| a s] |]; try discriminate.
    rewrite T by discriminate. intros E.
    pose proof (join_split_from ", " (String.length (String a s)) (String a s)) as J.
    unfold Js.split in E. rewrite E in J. discriminate.
  - rewrite T by assumption. apply join_split_from.
  - rewrite T by assumption. apply split_pieces. discriminate.
  - intros s n H. apply split_fuel_enough; [discriminate | exact H].
  - intros pool now rows Hc Hq. unfold run.
    rewrite get_api_discord_miss by exact Hc. rewrite Hq. reflexivity.
  - intros pool k user rest Hq. unfold_handler. cbn. rewrite Hq. reflexivity.
Qed.

(* ================================================================== *)
(** ** The cache on the event loop *)
(* ================================================================== *)

(** A turn leaves the cache as it was or assigns payload and timestamp
    together. *)
Lemma turn_writes_both (s s' : Loop) :
  turn s s' ->
  l_cache s' = l_cache s
  \/ exists p t,
       l_cache s' = {| data := Some p; timestamp := Some t;
                       cacheTime := cacheTime (l_cache s) |}
       /\ l_refreshes s' = (l_refreshes s ++ [(p, t)])%list.
Proof.
  intros [s0 now resp H | s0 now H | s0 i now r H]; cbn; auto.
  destruct r as [result | e]; cbn; auto.
  right. exists (map member_of result), now. auto.
Qed.

Lemma reachable_written_whole (s : Loop) :
  reachable s -> written_whole s /\ cacheTime (l_cache s) = 300000.
Proof.
  induction 1 as [| s s' _ [IH TTL] T].
  - split; reflexivity.
  - destruct T as [s0 now resp H | s0 now H | s0 i now r H].
    + split; assumption.
    + split; assumption.
    + destruct r as [result | e]; unfold written_whole in *; cbn.
      * rewrite rev_app_distr. cbn. unfold stored. rewrite TTL. split; reflexivity.
      * split; assumption.
Qed.

(** C9: in every state the process can reach, with any interleaving of
    requests and of settling queries, the payload is present if and only
    if the timestamp is; the cache is either the one of process start
    (both absent) or exactly the payload and the [now] of one completed
    refresh, the last one; and a turn of the loop either leaves the cache
    alone or assigns both fields, so the payload is never overwritten
    without the timestamp. *)
Theorem cache_pair_invariant (s : Loop) :
  reachable s ->
  (data (l_cache s) = None <-> timestamp (l_cache s) = None)
  /\ data cache = None /\ timestamp cache = None
  /\ (l_cache s = cache
      \/ exists p t, In (p, t) (l_refreshes s)
                     /\ data (l_cache s) = Some p
                     /\ timestamp (l_cache s) = Some t)
  /\ (forall s', turn s s' ->
        l_cache s' = l_cache s
        \/ exists p t, data (l_cache s') = Some p
                       /\ timestamp (l_cache s') = Some t
                       /\ l_refreshes s' = (l_refreshes s ++ [(p, t)])%list)
  /\ (forall pool now,
        let c' := w_cache (snd (run (get_api_discord pool now) (l_cache s))) in
        c' = l_cache s
        \/ exists p, cached (l_cache s) now = None
                     /\ data c' = Some p /\ timestamp c' = Some now).
Proof.
  intros R. destruct (reachable_written_whole s R) as [W TTL].
  assert (Pair : l_cache s = cache
                 \/ exists p t, In (p, t) (l_refreshes s)
                                /\ data (l_cache s) = Some p
                                /\ timestamp (l_cache s) = Some t).
  { unfold written_whole in W.
    destruct (rev (l_refreshes s)) as [| [p t] tl] eqn:E; [now left |].
    right. exists p, t. rewrite W. repeat split.
    apply in_rev. rewrite E. now left. }
  split; [| split; [reflexivity | split; [reflexivity | split; [exact Pair | split]]]].
  - destruct Pair as [-> | (p & t & _ & -> & ->)]; [now split |].
    split; discriminate.
  - intros s' T. destruct (turn_writes_both s s' T) as [E | (p & t & E & L)];
      [now left |].
    right. exists p, t. rewrite E. auto.
  - intros pool now. cbv zeta. unfold run. rewrite get_api_discord_split. cbn.
    unfold listing_begin.
    destruct (cached (l_cache s) now) as [d |] eqn:C; [now left |].
    destruct (q_listing pool) as [rows | e]; cbn; [| now left].
    right. exists (map member_of rows). auto.
Qed.

(** A run of the loop: two requests miss at 1000 and at 1001, the query of
    the second settles first with one member, then the query of the first
    settles with none. *)
Lemma cache_pair_invariant_witness :
  let ann := {| Row.user_id := "1"; Row.username := Some "ann";
                Row.roles := Some "A, B" |} in
  let s := {| l_cache := stored [] 1000;
              l_waiting := [];
              l_refreshes := [([member_of ann], 1001); ([], 1000)] |} in
  reachable s
  /\ (data (l_cache s) = None <-> timestamp (l_cache s) = None)
  /\ (l_cache s = cache
      \/ exists p t, In (p, t) (l_refreshes s)
                     /\ data (l_cache s) = Some p
                     /\ timestamp (l_cache s) = Some t).
Proof.
  cbv zeta.
  set (ann := {| Row.user_id := "1"; Row.username := Some "ann";
                 Row.roles := Some "A, B" |}).
  set (s1 := {| l_cache := cache; l_waiting := [1000]; l_refreshes := [] |}).
  set (s2 := {| l_cache := cache; l_waiting := [1000; 1001]; l_refreshes := [] |}).
  set (s3 := {| l_cache := stored [member_of ann] 1001; l_waiting := [1000];
                l_refreshes := [([member_of ann], 1001)] |}).
  assert (R1 : reachable s1)
    by exact (reach_turn boot s1 reach_boot (turn_miss boot 1000 eq_refl)).
  assert (R2 : reachable s2)
    by exact (reach_turn s1 s2 R1 (turn_miss s1 1001 eq_refl)).
  assert (R3 : reachable s3)
    by exact (reach_turn s2 s3 R2 (turn_settle s2 1%nat 1001 (Rows [ann]) eq_refl)).
  pose proof (reach_turn s3 _ R3 (turn_settle s3 0%nat 1000 (Rows []) eq_refl)) as R.
  change (reachable {| l_cache := stored [] 1000; l_waiting := [];
                       l_refreshes := [([member_of ann], 1001); ([], 1000)] |}) in R.
  split; [exact R |].
  destruct (cache_pair_invariant _ R) as (H1 & _ & _ & H2 & _).
  split; [exact H1 | exact H2].
Defined.

(* ================================================================== *)
(** ** The threshold of the activity endpoints *)
(* ================================================================== *)




Lemma existsb_eqb_In (x : string) (l : list string) :
  existsb (String.eqb x) l = true <-> In x l.
Proof.
  rewrite existsb_exists. split.
  - intros (y & Hy & E). apply String.eqb_eq in E. now subst.
  - intros H. exists x. split; [exact H | apply String.eqb_refl].
Qed.

(** The array of a set holds the strings of the list, each once. *)
Lemma set_of_spec (l seen : list string) :
  (forall x, In x (Js.set_of seen l) <-> In x l /\ ~ In x seen)
  /\ NoDup (Js.set_of seen l).
Proof.
  revert seen. induction l as [| y l IH]; intros seen; cbn.
  - split; [intros x; tauto | constructor].
  - destruct (existsb (String.eqb y) seen) eqn:E.
    + apply existsb_eqb_In in E. destruct (IH seen) as [I N].
      split; [| exact N]. intros x. rewrite I. split.
      * intros [H1 H2]. auto.
      * intros [[-> | H1] H2]; [contradiction | auto].
    + assert (Hy : ~ In y seen).
      { intros H. apply existsb_eqb_In in H. congruence. }
      destruct (IH (y :: seen)) as [I N]. split.
      * intros x. cbn. rewrite I. cbn. split.
        -- intros [<- | [H1 H2]]; [auto |]. split; [auto |]. tauto.
        -- intros [[<- | H1] H2]; [auto |].
           destruct (string_dec y x) as [-> | D]; [auto |]. right. tauto.
      * constructor; [| exact N]. rewrite I. cbn. tauto.
Qed.

(** The groups the window query returns. *)
Lemma window_spec (tbl : list Message.t) (lo hi : Z) (min : Js.num) (u : string) :
  let rows := filter (Sql.in_window lo hi) tbl in
  NoDup (map fst (Sql.window tbl lo hi min))
  /\ (In u (map fst (Sql.window tbl lo hi min)) <->
      (exists m, In m tbl /\ Sql.in_window lo hi m = true /\ Message.userid m = u)
      /\ Js.gt (Js.Num (Sql.total u rows)) min = true).
Proof.
  cbv zeta. unfold Sql.window.
  set (rows := filter (Sql.in_window lo hi) tbl).
  destruct (set_of_spec (map Message.userid rows) []) as [I N].
  split.
  - assert (G : forall l, NoDup l ->
                  NoDup (map fst (filter (fun g => Js.gt (Js.Num (snd g)) min)
                                    (map (fun u => (u, Sql.total u rows)) l)))).
    { induction l as [| x l IH]; intros ND; cbn [map filter snd];
        [constructor |].
      inversion ND as [| ? ? Hx ND']; subst.
      destruct (Js.gt (Js.Num (Sql.total x rows)) min); cbn [map fst];
        [| now apply IH].
      constructor; [| now apply IH].
      rewrite in_map_iff. intros ([y t] & E & H). cbn in E. subst y.
      apply filter_In in H. destruct H as [H _].
      apply in_map_iff in H. destruct H as (z & [= <- _] & H). contradiction. }
    apply G, N.
  - rewrite in_map_iff. split.
    + intros ([y t] & E & H). cbn in E. subst y.
      apply filter_In in H. destruct H as [H G]. cbn in G.
      apply in_map_iff in H. destruct H as (z & [= -> <-] & H).
      apply I in H. destruct H as [H _].
      apply in_map_iff in H. destruct H as (m & E & H).
      apply filter_In in H. split; [| exact G].
      exists m. tauto.
    + intros [(m & Hm & W & E) G]. exists (u, Sql.total u rows).
      split; [reflexivity |]. apply filter_In. split; [| exact G].
      apply in_map_iff. exists u. split; [reflexivity |].
      apply I. split; [| intros []]. apply in_map_iff. exists m.
      split; [exact E |]. apply filter_In. auto.
Qed.

(** A [Map] holds each key once. *)
Lemma map_set_keys {V} (k : string) (v : V) (m : Js.jsmap V) :
  NoDup (map fst m) -> NoDup (map fst (Js.map_set k v m))
  /\ (forall x, In x (map fst (Js.map_set k v m)) <-> x = k \/ In x (map fst m)).
Proof.
  induction m as [| [k' v'] m IH]; intros ND; cbn.
  - split; [repeat constructor; intros [] |]. intros x. intuition.
  - inversion ND as [| ? ? Hk ND']; subst.
    destruct (String.eqb_spec k k') as [-> | D]; cbn.
    + split; [exact ND |]. intros x. intuition.
    + destruct (IH ND') as [N I]. split.
      * constructor; [| exact N]. rewrite I. intros [E | H]; [congruence | auto].
      * intros x. rewrite I. intuition.
Qed.

Lemma map_of_keys {V} (entries : list (string * V)) :
  NoDup (map fst (Js.map_of entries)).
Proof.
  unfold Js.map_of.
  assert (G : forall acc : Js.jsmap V, NoDup (map fst acc) ->
                NoDup (map fst (fold_left (fun m e => Js.map_set (fst e) (snd e) m)
                                  entries acc))).
  { induction entries as [| e es IH]; intros acc ND; cbn; [exact ND |].
    apply IH. now apply map_set_keys. }
  apply G. constructor.
Qed.

(** With each key once, the entries are what [get] finds. *)
Lemma map_get_In {V} (m : Js.jsmap V) (k : string) (v : V) :
  NoDup (map fst m) -> (In (k, v) m <-> Js.map_get k m = Some v).
Proof.
  induction m as [| [k' v'] m IH]; intros ND; cbn.
  - split; [intros [] | discriminate].
  - inversion ND as [| ? ? Hk ND']; subst.
    destruct (String.eqb_spec k k') as [-> | D].
    + split.
      * intros [[= ->] | H]; [reflexivity |].
        elim Hk. apply in_map_iff. now exists (k', v).
      * intros [= ->]. now left.
    + rewrite <- (IH ND'). split.
      * intros [[= E _] | H]; [congruence | exact H].
      * auto.
Qed.

Lemma map_get_set_same {V} (k : string) (v : V) (m : Js.jsmap V) :
  Js.map_get k (Js.map_set k v m) = Some v.
Proof.
  induction m as [| [k' v'] m IH]; cbn.
  - now rewrite String.eqb_refl.
  - destruct (String.eqb_spec k k') as [<- | D]; cbn.
    + now rewrite String.eqb_refl.
    + destruct (String.eqb_spec k k'); [contradiction | exact IH].
Qed.

Lemma map_get_set_other {V} (k k' : string) (v : V) (m : Js.jsmap V) :
  k' <> k -> Js.map_get k' (Js.map_set k v m) = Js.map_get k' m.
Proof.
  intros D. induction m as [| [k0 v0] m IH]; cbn.
  - destruct (String.eqb_spec k' k); [contradiction | reflexivity].
  - destruct (String.eqb_spec k k0) as [<- | D0]; cbn.
    + destruct (String.eqb_spec k' k); [contradiction | reflexivity].
    + destruct (String.eqb k' k0); [reflexivity | exact IH].
Qed.

Lemma find_append {A} (f : A -> bool) (l1 l2 : list A) :
  find f (l1 ++ l2) = match find f l1 with
                      | Some x => Some x
                      | None => find f l2
                      end.
Proof.
  induction l1 as [| x l1 IH]; cbn; [reflexivity |].
  destruct (f x); [reflexivity | exact IH].
Qed.

Lemma find_key_None {V} (k : string) (es : list (string * V)) :
  find (fun e => String.eqb k (fst e)) es = None <-> ~ In k (map fst es).
Proof.
  induction es as [| e es IH]; cbn; [tauto |].
  destruct (String.eqb_spec k (fst e)) as [-> | D].
  - split; [discriminate | intros H; elim H; now left].
  - rewrite IH. split.
    + intros H [E | Hin]; [congruence | contradiction].
    + intros H Hin. apply H. now right.
Qed.

(** [get] after [new Map(entries)]: the last entry of the key. *)
Lemma map_of_get {V} (entries : list (string * V)) (k : string) :
  Js.map_get k (Js.map_of entries)
  = option_map snd (find (fun e => String.eqb k (fst e)) (rev entries)).
Proof.
  assert (G : forall (es : list (string * V)) acc,
            Js.map_get k (fold_left (fun m e => Js.map_set (fst e) (snd e) m) es acc)
            = match find (fun e => String.eqb k (fst e)) (rev es) with
              | Some e => Some (snd e)
              | None => Js.map_get k acc
              end).
  { induction es as [| e es IH]; intros acc; cbn; [reflexivity |].
    rewrite IH, find_append.
    destruct (find (fun e0 => String.eqb k (fst e0)) (rev es)); [reflexivity |].
    cbn. destruct (String.eqb_spec k (fst e)) as [-> | D].
    - apply map_get_set_same.
    - now apply map_get_set_other. }
  unfold Js.map_of. rewrite G. cbn.
  destruct (find (fun e => String.eqb k (fst e)) (rev entries)); reflexivity.
Qed.

Lemma map_of_get_None {V} (entries : list (string * V)) (k : string) :
  Js.map_get k (Js.map_of entries) = None <-> ~ In k (map fst entries).
Proof.
  rewrite map_of_get.
  destruct (find (fun e => String.eqb k (fst e)) (rev entries)) eqn:E; cbn.
  - split; [discriminate |]. intros H.
    assert (N : ~ In k (map fst (rev entries))).
    { rewrite map_rev, <- in_rev. exact H. }
    apply find_key_None in N. congruence.
  - split; [| reflexivity]. intros _. apply find_key_None in E.
    rewrite map_rev, <- in_rev in E. exact E.
Qed.


Ltac unfold_activity :=
  unfold run, get_api_twitter_core_window, get_api_core_discord,
    get_api_twitter_core_snapshot, try_catch, bind, ret, query, json, fail in *.

(** The identities the snapshot endpoint keeps. *)
Lemma validUserIds_spec (nowRes : list Snap.t) (weekMap : Js.jsmap Js.num)
  (min : Js.num) (u : string) :
  In u (validUserIds (sums nowRes) weekMap min) <->
  exists n,
    Js.map_get u (sums nowRes) = Some n
    /\ Js.gt (Js.sub n (msgWeekAgo weekMap u)) min = true.
Proof.
  unfold validUserIds. rewrite in_map_iff. split.
  - intros ([k n] & E & H). cbn in E. subst k.
    apply filter_In in H. destruct H as [H G]. cbn [fst snd] in G.
    apply map_get_In in H; [| apply map_of_keys]. eauto.
  - intros (n & H & G). exists (u, n). split; [reflexivity |].
    apply filter_In. split; [| exact G].
    apply map_get_In; [apply map_of_keys | exact H].
Qed.





(* ================================================================== *)
(** ** The listing and the lookup queries *)
(* ================================================================== *)

Section LatestPerUser.

Local Abbreviation uid := Activity.user_id.
Local Abbreviation stamp := Activity.last_message.
Local Abbreviation leb := Sql.ActivityOrder.leb.

Lemma compare_refl (u : string) : String_as_OT.compare u u = Eq.
Proof.
  destruct (String_as_OT.compare_spec u u) as [_ | L | L]; [reflexivity | |];
    exfalso; revert L; apply irreflexivity.
Qed.

Lemma compare_lt_trans (u v w : string) :
  String_as_OT.compare u v = Lt -> String_as_OT.compare v w = Lt ->
  String_as_OT.compare u w = Lt.
Proof. apply (transitivity (R := String_as_OT.lt)). Qed.

Lemma compare_eq (u v : string) : String_as_OT.compare u v = Eq -> u = v.
Proof.
  intros E. destruct (String_as_OT.compare_spec u v) as [H | H | H];
    [exact H | discriminate | discriminate].
Qed.

(** What the order says of two rows. *)
Lemma leb_cases (a b : Activity.t) :
  leb a b = true ->
  String_as_OT.compare (uid a) (uid b) = Lt
  \/ (uid a = uid b /\ stamp b <= stamp a).
Proof.
  unfold leb. destruct (String_as_OT.compare (uid a) (uid b)) eqn:E; intros H.
  - right. split; [now apply compare_eq | now apply Z.leb_le].
  - now left.
  - discriminate.
Qed.

Lemma leb_trans : Transitive (fun a b => is_true (leb a b)).
Proof.
  intros a b c Hab Hbc. unfold is_true in *.
  destruct (leb_cases a b Hab) as [L1 | [E1 T1]],
           (leb_cases b c Hbc) as [L2 | [E2 T2]]; unfold leb.
  - now rewrite (compare_lt_trans _ _ _ L1 L2).
  - rewrite <- E2. now rewrite L1.
  - rewrite E1. now rewrite L2.
  - rewrite E1, E2, compare_refl. apply Z.leb_le. lia.
Qed.

Lemma leb_not_gt (a x : Activity.t) :
  leb a x = true -> String_as_OT.compare (uid a) (uid x) <> Gt.
Proof.
  intros H. destruct (leb_cases a x H) as [L | [E _]].
  - congruence.
  - rewrite E, compare_refl. discriminate.
Qed.

(** The rows kept are rows of the list. *)
Lemma distinct_on_In (l : list Activity.t) (prev : option string) (r : Activity.t) :
  In r (Sql.distinct_on prev l) -> In r l.
Proof.
  revert prev. induction l as [| a tl IH]; intros prev H; [exact H |].
  cbn in H. destruct prev as [u |].
  - destruct (String.eqb u (uid a)).
    + right. now apply (IH (Some u)).
    + destruct H as [<- | H]; [now left | right; now apply (IH _ H)].
  - destruct H as [<- | H]; [now left | right; now apply (IH _ H)].
Qed.

(** Every identity of the list, other than the one just seen, is kept. *)
Lemma distinct_on_covers (l : list Activity.t) (prev : option string) (x : Activity.t) :
  In x l -> prev <> Some (uid x) ->
  exists r, In r (Sql.distinct_on prev l) /\ uid r = uid x.
Proof.
  revert prev. induction l as [| a tl IH]; intros prev Hx Hp; [destruct Hx |].
  assert (Keep : exists r, In r (a :: Sql.distinct_on (Some (uid a)) tl)
                           /\ uid r = uid x).
  { destruct Hx as [-> | Hx]; [exists x; split; [now left | reflexivity] |].
    destruct (string_dec (uid a) (uid x)) as [E | D].
    - exists a. split; [now left | exact E].
    - destruct (IH (Some (uid a)) Hx) as (r & Hr & E); [congruence |].
      exists r. split; [now right | exact E]. }
  cbn. destruct prev as [u |]; [| exact Keep].
  destruct (String.eqb_spec u (uid a)) as [E | D]; [| exact Keep].
  destruct Hx as [-> | Hx]; [congruence |].
  now apply IH.
Qed.

(** On sorted rows, what is kept after [u] lies strictly above [u]. *)
Lemma distinct_on_above (l : list Activity.t) (u : string) (r : Activity.t) :
  StronglySorted (fun a b => is_true (leb a b)) l ->
  Sql.below (Some u) l ->
  In r (Sql.distinct_on (Some u) l) ->
  String_as_OT.compare u (uid r) = Lt.
Proof.
  revert u. induction l as [| a tl IH]; intros u S B H; [destruct H |].
  apply StronglySorted_inv in S. destruct S as [S Ha].
  rewrite Forall_forall in Ha. cbn in H.
  assert (Ba : String_as_OT.compare u (uid a) <> Gt) by (apply B; now left).
  destruct (String.eqb_spec u (uid a)) as [E | D].
  - apply IH; [exact S | | exact H]. intros x Hx. apply B. now right.
  - assert (L : String_as_OT.compare u (uid a) = Lt).
    { destruct (String_as_OT.compare u (uid a)) eqn:C;
        [apply compare_eq in C; contradiction | reflexivity | congruence]. }
    destruct H as [<- | H]; [exact L |].
    apply (compare_lt_trans _ (uid a)); [exact L |].
    apply IH; [exact S | | exact H].
    intros x Hx. apply leb_not_gt, Ha, Hx.
Qed.

(** On sorted rows, each identity is kept once, with its latest row. *)
Lemma distinct_on_sorted (l : list Activity.t) (prev : option string) :
  StronglySorted (fun a b => is_true (leb a b)) l ->
  Sql.below prev l ->
  NoDup (map uid (Sql.distinct_on prev l))
  /\ (forall r x, In r (Sql.distinct_on prev l) -> In x l -> uid x = uid r ->
        stamp x <= stamp r).
Proof.
  revert prev. induction l as [| a tl IH]; intros prev S B.
  - split; [constructor | intros r x []].
  - apply StronglySorted_inv in S. destruct S as [S Ha].
    rewrite Forall_forall in Ha.
    assert (Ba : Sql.below (Some (uid a)) tl).
    { intros x Hx. apply leb_not_gt, Ha, Hx. }
    assert (Keep : NoDup (map uid (a :: Sql.distinct_on (Some (uid a)) tl))
                   /\ (forall r x, In r (a :: Sql.distinct_on (Some (uid a)) tl) ->
                         In x (a :: tl) -> uid x = uid r -> stamp x <= stamp r)).
    { destruct (IH (Some (uid a)) S Ba) as [N M]. split.
      - cbn. constructor; [| exact N]. rewrite in_map_iff. intros (r & E & Hr).
        pose proof (distinct_on_above tl (uid a) r S Ba Hr) as L.
        rewrite E, compare_refl in L. discriminate.
      - intros r x [<- | Hr] [<- | Hx] E.
        + lia.
        + destruct (leb_cases a x (Ha x Hx)) as [L | [_ T]]; [| exact T].
          rewrite E, compare_refl in L. discriminate.
        + pose proof (distinct_on_above tl (uid a) r S Ba Hr) as L.
          rewrite E, compare_refl in L. discriminate.
        + now apply M. }
    cbn. destruct prev as [u |]; [| exact Keep].
    destruct (String.eqb_spec u (uid a)) as [E | D]; [| exact Keep].
    assert (Bt : Sql.below (Some u) tl).
    { intros x Hx. apply B. now right. }
    destruct (IH (Some u) S Bt) as [N M]. split; [exact N |].
    intros r x Hr [<- | Hx] Ex; [| now apply M].
    pose proof (distinct_on_above tl u r S Bt Hr) as L.
    rewrite E, Ex, compare_refl in L. discriminate.
Qed.

Variable cond : Activity.t -> bool.
Variable tbl : list Activity.t.

Lemma sort_In (x : Activity.t) :
  In x (Sql.ActivitySort.sort (filter cond tbl)) <-> In x tbl /\ cond x = true.
Proof.
  rewrite <- filter_In. split; apply Permutation_in.
  - symmetry. apply Sql.ActivitySort.Permuted_sort.
  - apply Sql.ActivitySort.Permuted_sort.
Qed.

(** [DISTINCT ON (user_id) ... ORDER BY user_id, last_message DESC]: one
    row for each identity that has a row satisfying the [WHERE], and that
    row is one of them with the greatest timestamp. *)
Lemma latest_per_user_spec :
  NoDup (map uid (Sql.latest_per_user cond tbl))
  /\ (forall r, In r (Sql.latest_per_user cond tbl) -> In r tbl /\ cond r = true)
  /\ (forall x, In x tbl -> cond x = true ->
        exists r, In r (Sql.latest_per_user cond tbl) /\ uid r = uid x)
  /\ (forall r x, In r (Sql.latest_per_user cond tbl) ->
        In x tbl -> cond x = true -> uid x = uid r -> stamp x <= stamp r).
Proof.
  unfold Sql.latest_per_user.
  pose proof (Sql.ActivitySort.StronglySorted_sort (filter cond tbl) leb_trans) as S.
  destruct (distinct_on_sorted _ None S I) as [N M].
  split; [exact N | split; [| split]].
  - intros r Hr. apply sort_In. now apply distinct_on_In in Hr.
  - intros x Hx Hc. apply distinct_on_covers; [| discriminate].
    apply sort_In. auto.
  - intros r x Hr Hx Hc E. apply (M r x Hr); [| exact E]. apply sort_In. auto.
Qed.

(** With [LIMIT 1]: the first row of the sorted candidates. *)
Lemma latest_per_user_head :
  (Sql.latest_per_user cond tbl = [] /\ forall x, In x tbl -> cond x = false)
  \/ exists a rest,
       Sql.latest_per_user cond tbl = a :: rest
       /\ In a tbl /\ cond a = true
       /\ forall x, In x tbl -> cond x = true ->
            String_as_OT.compare (uid a) (uid x) <> Gt
            /\ (uid x = uid a -> stamp x <= stamp a).
Proof.
  unfold Sql.latest_per_user.
  pose proof (Sql.ActivitySort.StronglySorted_sort (filter cond tbl) leb_trans) as S.
  pose proof sort_In as In_sort.
  destruct (Sql.ActivitySort.sort (filter cond tbl)) as [| a tl].
  - left. split; [reflexivity |]. intros x Hx.
    destruct (cond x) eqn:C; [| reflexivity].
    destruct (proj2 (In_sort x) (conj Hx C)).
  - right. exists a, (Sql.distinct_on (Some (uid a)) tl).
    apply StronglySorted_inv in S. destruct S as [_ Ha].
    rewrite Forall_forall in Ha.
    destruct (proj1 (In_sort a) (or_introl eq_refl)) as [Hin Hc].
    split; [reflexivity | split; [exact Hin | split; [exact Hc |]]].
    intros x Hx C. destruct (proj2 (In_sort x) (conj Hx C)) as [<- | Hx'].
    + rewrite compare_refl. split; [discriminate | lia].
    + split; [apply leb_not_gt, Ha, Hx' |].
      intros E. destruct (leb_cases a x (Ha x Hx')) as [L | [_ T]]; [| exact T].
      rewrite E, compare_refl in L. discriminate.
Qed.

End LatestPerUser.





(** A key that is the name of a lesser identity is answered with that
    identity, also when it is an identity of its own. *)
Example lookup_by_shadowed_identity :
  let five := Activity.mk "5" (Some "five") (Some "A") 1 true in
  let three := Activity.mk "3" (Some "5") (Some "B") 1 true in
  let db := {| channel_activity := [five; three]; apikeys := [];
               messages_data := [] |} in
  fst (run (get_api_discord_idusername (pool_of_db db (pool_down "down")) "5") cache)
  = Done (json (User {| Member.discordid := "3"; Member.username := Some "5";
                        Member.roles := ["B"] |})).
Proof. reflexivity. Qed.

(* ================================================================== *)
(** ** What the handlers do with the cache and with a failing store *)
(* ================================================================== *)

(** X1: only the listing endpoint reads or writes the cache.  The
    middleware, the lookup, the three activity endpoints and the picture
    endpoint give the same answer and send the same queries from every
    state of the cache, and leave the cache as it was. *)
Theorem cache_is_private_to_listing (pool : Pool) :
  (forall apiKey, exists r qs, forall c,
      run (authenticateApiKey pool apiKey) c
      = (r, {| w_cache := c; w_queries := qs |}))
  /\ (forall idusername, exists r qs, forall c,
        run (get_api_discord_idusername pool idusername) c
        = (r, {| w_cache := c; w_queries := qs |}))
  /\ (forall msg sevenDaysAgo today, exists r qs, forall c,
        run (get_api_twitter_core_window pool msg sevenDaysAgo today) c
        = (r, {| w_cache := c; w_queries := qs |}))
  /\ (forall msg sevenDaysAgo today, exists r qs, forall c,
        run (get_api_core_discord pool msg sevenDaysAgo today) c
        = (r, {| w_cache := c; w_queries := qs |}))
  /\ (forall msg, exists r qs, forall c,
        run (get_api_twitter_core_snapshot pool msg) c
        = (r, {| w_cache := c; w_queries := qs |}))
  /\ (forall publicUrl discordId listing, exists r, forall c,
        run (get_api_discord_pfps publicUrl discordId listing) c
        = (r, {| w_cache := c; w_queries := [] |})).
Proof.
  split; [| split; [| split; [| split; [| split]]]].
  - intros [[| a k] |]; unfold_handler; cbn; try (eexists _, _; reflexivity).
    destruct (q_apikey pool (String a k)) as [[| row rows] | e]; cbn;
      eexists _, _; reflexivity.
  - intros k. unfold_handler. cbn.
    destruct (q_lookup pool k) as [[| user rest] | e]; cbn;
      eexists _, _; reflexivity.
  - intros msg lo hi. unfold_activity. cbv zeta.
    generalize (minMessages msg). intros min. cbn.
    destruct (q_window pool lo hi min) as [[| g gs] | e]; cbn;
      try (eexists _, _; reflexivity).
    destruct (q_handles pool (fst g :: map fst gs)) as [hs | e]; cbn;
      eexists _, _; reflexivity.
  - intros msg lo hi. unfold_activity. cbv zeta.
    generalize (minMessages msg). intros min. cbn.
    destruct (q_window pool lo hi min) as [gs | e]; cbn;
      eexists _, _; reflexivity.
  - intros msg. unfold_activity. cbv zeta.
    generalize (minMessages msg). intros min. cbn.
    destruct (q_fresh_snapshot pool) as [[| freshId older] | e]; cbn;
      try (eexists _, _; reflexivity).
    destruct (q_snapshot pool freshId) as [nowRes | e]; cbn;
      try (eexists _, _; reflexivity).
    destruct (q_snapshot pool (freshId - 42)) as [weekRes | e]; cbn;
      try (eexists _, _; reflexivity).
    destruct (validUserIds (sums nowRes) (sums weekRes) min) as [| i ids]; cbn;
      try (eexists _, _; reflexivity).
    destruct (q_handles pool (i :: ids)) as [hs | e]; cbn;
      eexists _, _; reflexivity.
  - intros publicUrl discordId listing. unfold run, get_api_discord_pfps,
      try_catch, ret. cbv zeta.
    destruct (List.length (fetchUserProfilePictures publicUrl discordId listing)
              =? 0)%nat; eexists; reflexivity.
Qed.

(** X2: every handler that queries the store stops at the first query the
    store refuses and answers 500, and it answers 500 only then; no
    exception leaves a handler.  The snapshot endpoint answers 404 exactly
    when the store holds no snapshot. *)
Theorem handlers_fail_fast (pool : Pool) (c : Cache) :
  (forall now, fails_fast pool (run (get_api_discord pool now) c))
  /\ (forall idusername,
        fails_fast pool (run (get_api_discord_idusername pool idusername) c))
  /\ (forall msg sevenDaysAgo today,
        fails_fast pool
          (run (get_api_twitter_core_window pool msg sevenDaysAgo today) c))
  /\ (forall msg sevenDaysAgo today,
        fails_fast pool (run (get_api_core_discord pool msg sevenDaysAgo today) c))
  /\ (forall msg,
        fails_fast pool (run (get_api_twitter_core_snapshot pool msg) c)
        /\ forall resp,
             fst (run (get_api_twitter_core_snapshot pool msg) c) = Done resp ->
             (status resp = 404 <-> q_fresh_snapshot pool = Rows [])).
Proof.
  assert (Ok : forall (b : Body) (qs : list Query) (w : World),
            w_queries w = qs ->
            Forall (fun q => refused pool q = false) qs ->
            fails_fast pool (Done (json b), w)).
  { intros b qs w <- F. exists (json b). split; [reflexivity |]. split.
    - cbn [snd]. induction F as [| q qs Hq F IH]; [constructor |].
      cbn. destruct qs; [constructor |]. constructor; [exact Hq | exact IH].
    - cbn [snd]. split; [discriminate |]. intros E.
      apply existsb_exists in E. destruct E as (q & Hin & Hq).
      rewrite Forall_forall in F. rewrite (F q Hin) in Hq. discriminate. }
  split; [| split; [| split; [| split]]].
  - intros now. unfold run. rewrite get_api_discord_split. cbn [w_cache w_queries].
    unfold listing_begin. destruct (cached c now) as [d |].
    + apply (Ok (Users d) []); [reflexivity | constructor].
    + destruct (q_listing pool) as [rows | e] eqn:Q; cbn.
      * apply (Ok _ [SelListing]); [reflexivity |].
        constructor; [cbn; now rewrite Q | constructor].
      * eexists. split; [reflexivity |]. split; [constructor |].
        cbn. rewrite Q. split; reflexivity.
  - intros k. unfold_handler. cbn.
    destruct (q_lookup pool k) as [[| user rest] | e] eqn:Q; cbn.
    + eexists. split; [reflexivity |]. split; [constructor |].
      cbn. rewrite Q. cbn. split; discriminate.
    + apply (Ok _ [SelLookup k]); [reflexivity |].
      constructor; [cbn; now rewrite Q | constructor].
    + eexists. split; [reflexivity |]. split; [constructor |].
      cbn. rewrite Q. split; reflexivity.
  - intros msg lo hi. unfold_activity. cbv zeta.
    generalize (minMessages msg). intros min. cbn.
    destruct (q_window pool lo hi min) as [[| g gs] | e] eqn:Q; cbn.
    + apply (Ok _ [SelWindow lo hi min]); [reflexivity |].
      constructor; [cbn; now rewrite Q | constructor].
    + destruct (q_handles pool (fst g :: map fst gs)) as [hs | e] eqn:H; cbn.
      * apply (Ok _ [SelWindow lo hi min; SelHandles (fst g :: map fst gs)]);
          [reflexivity |].
        repeat constructor; cbn; [now rewrite Q | now rewrite H].
      * eexists. split; [reflexivity |]. split.
        -- cbn. constructor; [cbn; now rewrite Q | constructor].
        -- cbn. rewrite Q, H. split; reflexivity.
    + eexists. split; [reflexivity |]. split; [constructor |].
      cbn. rewrite Q. split; reflexivity.
  - intros msg lo hi. unfold_activity. cbv zeta.
    generalize (minMessages msg). intros min. cbn.
    destruct (q_window pool lo hi min) as [gs | e] eqn:Q; cbn.
    + apply (Ok _ [SelWindow lo hi min]); [reflexivity |].
      constructor; [cbn; now rewrite Q | constructor].
    + eexists. split; [reflexivity |]. split; [constructor |].
      cbn. rewrite Q. split; reflexivity.
  - intros msg. unfold_activity. cbv zeta.
    generalize (minMessages msg). intros min. cbn.
    destruct (q_fresh_snapshot pool) as [[| freshId older] | e] eqn:F; cbn.
    + split.
      * eexists. split; [reflexivity |]. split; [constructor |].
        cbn. rewrite F. cbn. split; discriminate.
      * intros resp [= <-]. cbn. split; reflexivity.
    + assert (N : forall resp : Response,
                (status resp = 404 <-> Rows (freshId :: older) = @Rows Z [])
                <-> status resp <> 404).
      { intros resp. split.
        - intros [H _] E. specialize (H E). discriminate.
        - intros H. split; [contradiction | discriminate]. }
      destruct (q_snapshot pool freshId) as [nowRes | e] eqn:Q1; cbn.
      * destruct (q_snapshot pool (freshId - 42)) as [weekRes | e] eqn:Q2; cbn.
        -- destruct (validUserIds (sums nowRes) (sums weekRes) min)
             as [| i ids] eqn:V; cbn.
           ++ split.
              ** apply (Ok _ [SelFreshSnapshot; SelSnapshot freshId;
                              SelSnapshot (freshId - 42)]); [reflexivity |].
                 repeat constructor; cbn; [now rewrite F | now rewrite Q1
                                          | now rewrite Q2].
              ** intros resp [= <-]. apply N. discriminate.
           ++ destruct (q_handles pool (i :: ids)) as [hs | e] eqn:H; cbn.
              ** split.
                 --- apply (Ok _ [SelFreshSnapshot; SelSnapshot freshId;
                                  SelSnapshot (freshId - 42); SelHandles (i :: ids)]);
                       [reflexivity |].
                     repeat constructor; cbn;
                       [now rewrite F | now rewrite Q1 | now rewrite Q2
                       | now rewrite H].
                 --- intros resp [= <-]. apply N. discriminate.
              ** split.
                 --- eexists. split; [reflexivity |]. split.
                     +++ cbn. repeat constructor; cbn;
                           [now rewrite F | now rewrite Q1 | now rewrite Q2].
                     +++ cbn. rewrite F, Q1, Q2, H. split; reflexivity.
                 --- intros resp [= <-]. apply N. discriminate.
        -- split.
           ++ eexists. split; [reflexivity |]. split.
              ** cbn. repeat constructor; cbn; [now rewrite F | now rewrite Q1].
              ** cbn. rewrite F, Q1, Q2. split; reflexivity.
           ++ intros resp [= <-]. apply N. discriminate.
      * split.
        -- eexists. split; [reflexivity |]. split.
           ++ cbn. repeat constructor; cbn; now rewrite F.
           ++ cbn. rewrite F, Q1. split; reflexivity.
        -- intros resp [= <-]. apply N. discriminate.
    + split.
      * eexists. split; [reflexivity |]. split; [constructor |].
        cbn. rewrite F. split; reflexivity.
      * intros resp [= <-]. cbn. split; discriminate.
Qed.

(* ================================================================== *)
(** ** The identities and the handles the activity endpoints answer *)
(* ================================================================== *)

(** X3: when identities pass the threshold and the handle query answers,
    the handler of [/api/twitter/core], in its trailing-window revision
    and in its snapshot revision alike, answers the non-empty handles of
    the rows of the handle query, each once; NULL and empty handles are
    dropped.  The handle query is asked about exactly the identities that
    passed. *)
Theorem coreSet_spec (xhandles : list (option string)) :
  NoDup (coreSet xhandles)
  /\ (forall h, In h (coreSet xhandles) <-> h <> "" /\ In (Some h) xhandles)
  /\ (forall pool msg sevenDaysAgo today c g gs,
        q_window pool sevenDaysAgo today (minMessages msg) = Rows (g :: gs) ->
        q_handles pool (map fst (g :: gs)) = Rows xhandles ->
        fst (run (get_api_twitter_core_window pool msg sevenDaysAgo today) c)
        = Done (json (Strings (coreSet xhandles))))
  /\ (forall pool msg c freshId older nowRes weekRes,
        q_fresh_snapshot pool = Rows (freshId :: older) ->
        q_snapshot pool freshId = Rows nowRes ->
        q_snapshot pool (freshId - 42) = Rows weekRes ->
        let ids := validUserIds (sums nowRes) (sums weekRes) (minMessages msg) in
        ids <> [] ->
        q_handles pool ids = Rows xhandles ->
        run (get_api_twitter_core_snapshot pool msg) c
        = (Done (json (Strings (coreSet xhandles))),
           {| w_cache := c;
              w_queries := [SelFreshSnapshot; SelSnapshot freshId;
                            SelSnapshot (freshId - 42); SelHandles ids] |}))
  /\ (forall pool msg sevenDaysAgo today c g gs,
        q_window pool sevenDaysAgo today (minMessages msg) = Rows (g :: gs) ->
        q_handles pool (map fst (g :: gs)) = Rows xhandles ->
        snd (run (get_api_twitter_core_window pool msg sevenDaysAgo today) c)
        = {| w_cache := c;
             w_queries := [SelWindow sevenDaysAgo today (minMessages msg);
                           SelHandles (map fst (g :: gs))] |}).
Proof.
  unfold coreSet.
  set (kept := flat_map (fun h => match h with
                                  | Some x => if Js.truthy_str h then [x] else []
                                  | None => []
                                  end) xhandles).
  destruct (set_of_spec kept []) as [I N].
  split; [exact N | split; [| split; [| split]]].
  - intros h. rewrite I. unfold kept. rewrite in_flat_map. split.
    + intros [([[| a x] |] & Hin & Hh) _]; cbn in Hh; try contradiction.
      destruct Hh as [<- | []]. split; [discriminate | exact Hin].
    + intros [Hne Hin]. split; [| intros []]. exists (Some h).
      split; [exact Hin |]. destruct h; [now elim Hne | now left].
  - intros pool msg lo hi c g gs Q H. unfold_activity. cbv zeta.
    rewrite Q. cbn. cbn in H. rewrite H. reflexivity.
  - intros pool msg c freshId older nowRes weekRes F Q1 Q2. cbv zeta.
    unfold_activity. cbv zeta. generalize (minMessages msg). intros min.
    rewrite F. cbn. rewrite Q1. cbn. rewrite Q2. cbn.
    destruct (validUserIds (sums nowRes) (sums weekRes) min) as [| i ids];
      intros NE H; [now elim NE |].
    cbn [List.length Nat.eqb]. rewrite H. reflexivity.
  - intros pool msg lo hi c g gs Q H. unfold_activity. cbv zeta.
    rewrite Q. cbn. cbn in H. rewrite H. reflexivity.
Qed.

Lemma NoDup_keys_filter {V} (f : string * V -> bool) (m : list (string * V)) :
  NoDup (map fst m) -> NoDup (map fst (filter f m)).
Proof.
  induction m as [| e m IH]; intros ND; cbn; [constructor |].
  inversion ND as [| ? ? He ND']; subst.
  destruct (f e); cbn; [| now apply IH].
  constructor; [| now apply IH].
  rewrite in_map_iff. intros (x & E & Hx). apply filter_In in Hx.
  apply He. rewrite <- E. apply in_map. tauto.
Qed.

(** X4: raising the threshold never adds an identity to what the activity
    endpoints keep, by the window query or by the snapshot loop; and no
    identity is kept twice. *)
Theorem raising_threshold_shrinks (low high : Z) :
  low <= high ->
  (forall tbl sevenDaysAgo today,
     NoDup (map fst (Sql.window tbl sevenDaysAgo today (Js.Num low)))
     /\ incl (map fst (Sql.window tbl sevenDaysAgo today (Js.Num high)))
             (map fst (Sql.window tbl sevenDaysAgo today (Js.Num low))))
  /\ (forall nowRes weekRes,
        NoDup (validUserIds (sums nowRes) (sums weekRes) (Js.Num low))
        /\ incl (validUserIds (sums nowRes) (sums weekRes) (Js.Num high))
                (validUserIds (sums nowRes) (sums weekRes) (Js.Num low))).
Proof.
  intros Hle. split.
  - intros tbl lo hi. split.
    + apply (window_spec tbl lo hi (Js.Num low) "").
    + intros u Hu.
      apply (window_spec tbl lo hi (Js.Num high) u) in Hu.
      apply (window_spec tbl lo hi (Js.Num low) u).
      destruct Hu as [Hm G]. split; [exact Hm |].
      cbn in *. apply Z.ltb_lt in G. apply Z.ltb_lt. lia.
  - intros nowRes weekRes. split.
    + unfold validUserIds. apply NoDup_keys_filter, map_of_keys.
    + intros u Hu. apply validUserIds_spec in Hu. apply validUserIds_spec.
      destruct Hu as (n & H1 & G). exists n. split; [exact H1 |].
      destruct (Js.sub n (msgWeekAgo (sums weekRes) u)) as [| d | |];
        cbn in *; try assumption.
      apply Z.ltb_lt in G. apply Z.ltb_lt. lia.
Qed.

Lemma raising_threshold_shrinks_witness :
  incl (validUserIds (sums [Snap.mk "a" (Js.Str "700"); Snap.mk "b" (Js.Str "900")])
          (sums [Snap.mk "b" (Js.Str "100")]) (Js.Num 750))
       (validUserIds (sums [Snap.mk "a" (Js.Str "700"); Snap.mk "b" (Js.Str "900")])
          (sums [Snap.mk "b" (Js.Str "100")]) (Js.Num 500)).
Proof.
  apply (raising_threshold_shrinks 500 750); lia.
Defined.

Lemma map_set_key_list {V} (k : string) (v : V) (m : Js.jsmap V) :
  map fst (Js.map_set k v m)
  = if existsb (String.eqb k) (map fst m) then map fst m
    else (map fst m ++ [k])%list.
Proof.
  induction m as [| [k' v'] m IH]; cbn; [reflexivity |].
  destruct (String.eqb k k'); cbn; [reflexivity |].
  rewrite IH. destruct (existsb (String.eqb k) (map fst m)); reflexivity.
Qed.

(** What [set_of] has seen matters only as a set. *)
Lemma set_of_seen (l seen seen' : list string) :
  (forall x, In x seen <-> In x seen') -> Js.set_of seen l = Js.set_of seen' l.
Proof.
  revert seen seen'. induction l as [| y l IH]; intros seen seen' E; cbn;
    [reflexivity |].
  assert (B : existsb (String.eqb y) seen = existsb (String.eqb y) seen').
  { destruct (existsb (String.eqb y) seen) eqn:A1,
             (existsb (String.eqb y) seen') eqn:A2; try reflexivity.
    - apply existsb_eqb_In, E, existsb_eqb_In in A1. congruence.
    - apply existsb_eqb_In, E, existsb_eqb_In in A2. congruence. }
  rewrite B. destruct (existsb (String.eqb y) seen'); [now apply IH |].
  f_equal. apply IH. intros x. cbn. rewrite E. tauto.
Qed.

(** The keys of [new Map(entries)], in the order [entries()] yields them. *)
Lemma map_of_key_list {V} (entries : list (string * V)) :
  map fst (Js.map_of entries) = Js.set_of [] (map fst entries).
Proof.
  assert (K : forall (es : list (string * V)) acc,
            map fst (fold_left (fun m e => Js.map_set (fst e) (snd e) m) es acc)
            = (map fst acc ++ Js.set_of (map fst acc) (map fst es))%list).
  { induction es as [| e es IH]; intros acc; cbn; [now rewrite app_nil_r |].
    rewrite IH, map_set_key_list.
    destruct (existsb (String.eqb (fst e)) (map fst acc)); [reflexivity |].
    rewrite <- app_assoc. cbn. do 2 f_equal. apply set_of_seen.
    intros x. rewrite in_app_iff. cbn. tauto. }
  unfold Js.map_of. rewrite K. reflexivity.
Qed.

(** Filtering the entries of a [Map] by key and value is filtering its
    keys by what [get] finds. *)
Lemma filter_by_key {V} (keep : string -> V -> bool) (m : Js.jsmap V) :
  NoDup (map fst m) ->
  map fst (filter (fun e => keep (fst e) (snd e)) m)
  = filter (fun u => match Js.map_get u m with
                     | Some v => keep u v
                     | None => false
                     end) (map fst m).
Proof.
  induction m as [| [u v] m IH]; intros ND; cbn; [reflexivity |].
  inversion ND as [| ? ? Hu ND']; subst.
  rewrite String.eqb_refl.
  assert (E : filter (fun u0 => match (if String.eqb u0 u then Some v
                                       else Js.map_get u0 m) with
                                | Some v0 => keep u0 v0
                                | None => false
                                end) (map fst m)
              = filter (fun u0 => match Js.map_get u0 m with
                                  | Some v0 => keep u0 v0
                                  | None => false
                                  end) (map fst m)).
  { apply filter_ext_in. intros x Hx.
    destruct (String.eqb_spec x u) as [-> | D]; [contradiction | reflexivity]. }
  rewrite E, <- (IH ND'). destruct (keep u v); reflexivity.
Qed.

(** X5: [new Map(entries)] as the snapshot endpoint builds it: the value
    of a key is the value of its last entry, a key without an entry is not
    found, and the keys come each once in the order of their first entry.
    So the count of an identity is read off its last row, an identity is
    not found exactly when no row carries it, and the identities the
    endpoint keeps come in the order of their first row. *)
Theorem map_of_last_entry_wins (rows : list Snap.t) (k : string) :
  Js.map_get k (sums rows)
  = option_map (fun r => Js.parseInt_of (Snap.msg r))
      (find (fun r => String.eqb k (Snap.user_id r)) (rev rows))
  /\ (Js.map_get k (sums rows) = None
      <-> forall r, In r rows -> Snap.user_id r <> k)
  /\ map fst (sums rows) = Js.set_of [] (map Snap.user_id rows)
  /\ (forall weekMap min,
        validUserIds (sums rows) weekMap min
        = filter (fun u => match Js.map_get u (sums rows) with
                           | Some n => Js.gt (Js.sub n (msgWeekAgo weekMap u)) min
                           | None => false
                           end)
            (Js.set_of [] (map Snap.user_id rows))).
Proof.
  assert (Keys : map fst (sums rows) = Js.set_of [] (map Snap.user_id rows)).
  { unfold sums. rewrite map_of_key_list, map_map. reflexivity. }
  split; [| split; [| split; [exact Keys |]]].
  - unfold sums. rewrite map_of_get, <- map_rev.
    induction (rev rows) as [| r l IH]; cbn; [reflexivity |].
    destruct (String.eqb k (Snap.user_id r)); [reflexivity | exact IH].
  - unfold sums. rewrite map_of_get_None, map_map. cbn. rewrite in_map_iff. split.
    + intros H r Hr E. apply H. now exists r.
    + intros H (r & E & Hr). exact (H r Hr E).
  - intros weekMap min. rewrite <- Keys. unfold validUserIds.
    apply (filter_by_key (fun u n => Js.gt (Js.sub n (msgWeekAgo weekMap u)) min)).
    apply map_of_keys.
Qed.

(* ================================================================== *)
(** ** How old an answer can be, and how often the store is asked *)
(* ================================================================== *)

(** X6: in every state the process can reach, a listing answered from the
    cache at [now] is the payload of the last refresh that completed, and
    that refresh read a clock reading [t] with [now - t < 300000]: nothing
    older than the window is ever served, and nothing a later refresh has
    replaced. *)
Theorem served_payload_is_last_refresh (s : Loop) (now : Z) (resp : Response) :
  reachable s ->
  listing_begin now (l_cache s) = Some resp ->
  exists earlier p t,
    l_refreshes s = (earlier ++ [(p, t)])%list
    /\ resp = json (Users p)
    /\ t <> 0
    /\ now - t < 300000.
Proof.
  intros R H. destruct (reachable_written_whole s R) as [W TTL].
  unfold written_whole in W. unfold listing_begin in H.
  destruct (rev (l_refreshes s)) as [| [p t] tl] eqn:E.
  - rewrite W in H. discriminate.
  - destruct (cached (l_cache s) now) as [d |] eqn:C; [| discriminate].
    injection H as <-. apply cached_iff in C.
    rewrite W in C. destruct C as [[= <-] (t' & [= <-] & Ht & Hlt)].
    exists (rev tl), p, t. repeat split; try assumption.
    rewrite <- (rev_involutive (l_refreshes s)), E. reflexivity.
Qed.

Lemma served_payload_is_last_refresh_witness :
  exists earlier p t,
    [([] : list Member.t, 1000)] = (earlier ++ [(p, t)])%list
    /\ json (Users []) = json (Users p)
    /\ t <> 0
    /\ 300999 - t < 300000.
Proof.
  set (s1 := {| l_cache := cache; l_waiting := [1000]; l_refreshes := [] |}).
  set (s2 := {| l_cache := stored [] 1000; l_waiting := [];
                l_refreshes := [([], 1000)] |}).
  assert (R1 : reachable s1)
    by exact (reach_turn boot s1 reach_boot (turn_miss boot 1000 eq_refl)).
  assert (R2 : reachable s2)
    by exact (reach_turn s1 s2 R1 (turn_settle s1 0%nat 1000 (Rows []) eq_refl)).
  exact (served_payload_is_last_refresh s2 300999 (json (Users [])) R2 eq_refl).
Defined.

(** X7: while the store answers, listing requests whose clock readings
    all lie within one span of [cacheTime] (and are not 0) send the
    listing query at most once between them, whatever the cache held
    before and whatever their keys; every other query sent is the
    validation of a key, and there is at most one of these for each
    request. *)
Theorem one_query_per_window (pool : Pool) (rows : list Row.t) (c : Cache)
  (start : Z) (requests : list (option string * Z)) :
  q_listing pool = Rows rows ->
  Forall (fun req => start <= snd req < start + cacheTime c /\ snd req <> 0)
    requests ->
  let sent :=
    w_queries (snd (serve_all pool requests {| w_cache := c; w_queries := [] |})) in
  (List.length (filter is_listing sent) <= 1)%nat
  /\ (List.length sent
      <= List.length requests + List.length (filter is_listing sent))%nat
  /\ Forall (fun q => q = SelListing \/ exists k, q = SelApiKey k) sent.
Proof.
  intros Q Hall. cbv zeta.
  assert (G : forall w,
            cacheTime (w_cache w) = cacheTime c ->
            (List.length
               (filter is_listing (w_queries (snd (serve_all pool requests w))))
             <= List.length (filter is_listing (w_queries w)) + 1)%nat
            /\ (List.length (w_queries (snd (serve_all pool requests w)))
                + List.length (filter is_listing (w_queries w))
                <= List.length (w_queries w) + List.length requests
                   + List.length
                       (filter is_listing
                          (w_queries (snd (serve_all pool requests w)))))%nat).
  { induction Hall as [| [apiKey now] tl [Hnow Hz] Htl IH]; intros w TTL;
      [cbn; lia |].
    cbn [snd] in Hnow, Hz. rewrite serve_all_cons. cbn [snd].
    destruct (authenticateApiKey_frame pool apiKey) as (a & qs & Keys & Len & E).
    rewrite (route_after pool apiKey _ a w _ (E w)).
    assert (NL : filter is_listing qs = []).
    { apply filter_none. rewrite Forall_forall in Keys.
      intros q Hq. destruct (Keys q Hq) as (k & _ & ->). reflexivity. }
    set (w1 := {| w_cache := w_cache w; w_queries := w_queries w ++ qs |}).
    assert (Skip : (List.length
                      (filter is_listing (w_queries (snd (serve_all pool tl w1))))
                    <= List.length (filter is_listing (w_queries w)) + 1)%nat
                   /\ (List.length (w_queries (snd (serve_all pool tl w1)))
                       + List.length (filter is_listing (w_queries w))
                       <= List.length (w_queries w)
                          + List.length ((apiKey, now) :: tl)
                          + List.length
                              (filter is_listing
                                 (w_queries (snd (serve_all pool tl w1)))))%nat).
    { destruct (IH w1 TTL) as [I1 I2]. cbn [w1 w_queries] in I1, I2.
      rewrite filter_app, NL, app_nil_r in I1, I2. rewrite List.length_app in I2.
      cbn [List.length]. split; [exact I1 | lia]. }
    destruct a as [r |]; [exact Skip |].
    rewrite get_api_discord_split. unfold listing_begin.
    destruct (cached (w_cache w1) now) as [d |] eqn:C; cbn [snd]; [exact Skip |].
    rewrite Q. cbn [listing_resume fst snd].
    set (w2 := {| w_cache := _; w_queries := _ |}).
    assert (Later : Forall (fun req => snd req - now < cacheTime (w_cache w2)) tl).
    { rewrite Forall_forall in *. intros req Hreq.
      destruct (Htl req Hreq) as [[_ Hlt] _].
      cbn [w2 w1 w_cache cacheTime]. rewrite TTL. lia. }
    destruct (serve_all_fresh pool tl (map member_of rows) now w2
                eq_refl eq_refl Hz Later) as (_ & _ & F & L).
    rewrite F. cbn [w2 w1 w_queries] in *.
    rewrite !filter_app, NL, app_nil_r. rewrite !List.length_app in *.
    cbn [filter is_listing List.length] in *. split; lia. }
  destruct (G {| w_cache := c; w_queries := [] |} eq_refl) as [G1 G2].
  split; [exact G1 | split; [cbn [w_queries filter List.length] in G2; lia |]].
  eapply Forall_impl;
    [| apply (serve_all_sends pool requests (mkWorld c [])); constructor].
  intros q [L | K]; [destruct q; try discriminate; now left | now right].
Qed.

Lemma one_query_per_window_witness :
  let pool := pool_of_db {| channel_activity := []; apikeys := ["k"];
                            messages_data := [] |} (pool_down "down") in
  let sent :=
    w_queries
      (snd (serve_all pool [(Some "k", 1000); (None, 2000); (Some "k", 300999)]
              {| w_cache := cache; w_queries := [] |})) in
  sent = [SelApiKey "k"; SelListing; SelApiKey "k"]
  /\ le (List.length (filter is_listing sent)) 1
  /\ le (List.length sent) (3 + List.length (filter is_listing sent))
  /\ Forall (fun q => q = SelListing \/ exists k, q = SelApiKey k) sent.
Proof.
  cbv zeta. split; [reflexivity |].
  apply (one_query_per_window
           (pool_of_db {| channel_activity := []; apikeys := ["k"];
                          messages_data := [] |} (pool_down "down"))
           [] cache 1000
           [(Some "k", 1000); (None, 2000); (Some "k", 300999)]);
    [reflexivity |].
  repeat constructor; cbn; lia.
Defined.

(* ================================================================== *)
(** ** Profile pictures: what is answered *)
(* ================================================================== *)

Example picture_examples :
  fetchUserProfilePictures (Js.Str "https://cdn") "123"
    (Listed (Some [ {| Key := Some "pfps/123-Van_Gogh.png" |};
                    {| Key := Some "pfps/123-a.b.c" |};
                    {| Key := Some "pfps/123-noext" |};
                    {| Key := Some "pfps/1234-x.png" |};
                    {| Key := None |};
                    {| Key := Some "pfps/" |} ]))
  = [ {| url := "https://cdn/pfps/123-Van_Gogh.png"; artistName := "Van Gogh" |};
      {| url := "https://cdn/pfps/123-a.b.c"; artistName := "a" |} ].
Proof. reflexivity. Qed.

Lemma string_app_assoc (a b c : string) : (a ++ b) ++ c = a ++ (b ++ c).
Proof. induction a as [| x a IH]; cbn; [reflexivity | now rewrite IH]. Qed.

(** The last piece of a split is the end of the string. *)
Lemma split_last_suffix (sep : string) (n : nat) (s : string) :
  exists dir, s = dir ++ last (Js.split_from n sep s) EmptyString.
Proof.
  revert s. induction n as [| n IH]; intros s.
  - exists EmptyString. reflexivity.
  - cbn [Js.split_from]. destruct (Js.cut sep s) as [[b rest] |] eqn:C.
    + destruct (IH rest) as [dir E]. exists (b ++ sep ++ dir).
      apply cut_app in C. rewrite C at 1. rewrite E at 1.
      rewrite !string_app_assoc. do 2 f_equal.
      pose proof (split_from_nonempty sep n rest) as NE.
      destruct (Js.split_from n sep rest); [now elim NE | reflexivity].
    + exists EmptyString. reflexivity.
Qed.

(** What the lazy group takes: everything up to the first dot that has
    something after it. *)
Lemma lazy_group_spec (r more : string) :
  lazy_group r = Some more ->
  exists ext, r = more ++ "." ++ ext /\ ext <> ""
              /\ ~ In "."%char (list_ascii_of_string more).
Proof.
  revert more. induction r as [| d r IH]; intros more H; [discriminate |].
  cbn [lazy_group] in H.
  destruct (Ascii.eqb_spec d ".") as [-> | D]; cbn [andb] in H.
  - destruct (String.eqb_spec r "") as [-> | NE]; cbn [negb] in H.
    + cbn in H. discriminate.
    + injection H as <-. exists r. cbn. auto.
  - destruct (lazy_group r) as [m |]; [| discriminate].
    injection H as <-. destruct (IH m eq_refl) as (ext & E & NE & ND).
    exists ext. split; [cbn in E |- *; now f_equal | split; [exact NE |]].
    cbn. intros [E' | Hin]; [congruence | contradiction].
Qed.

Lemma spaces_for_underscores_spec (s : string) :
  String.length (spaces_for_underscores s) = String.length s
  /\ ~ In "_"%char (list_ascii_of_string (spaces_for_underscores s)).
Proof.
  induction s as [| c s [IHl IHn]]; cbn; [split; [reflexivity | tauto] |].
  split; [now rewrite IHl |].
  intros [E | Hin]; [| contradiction].
  destruct (Ascii.eqb_spec c "_") as [-> | D]; [discriminate | congruence].
Qed.

(** A picture comes from an object whose file name has the shape
    [discordId-artist.ext]. *)
Lemma picture_of_spec (publicUrl : Js.value) (discordId : string)
  (obj : S3Object) (p : ProfilePicture) :
  picture_of publicUrl discordId obj = Some p ->
  exists key dir raw ext,
    Key obj = Some key
    /\ key = dir ++ discordId ++ "-" ++ raw ++ "." ++ ext
    /\ Js.cut "/" (discordId ++ "-" ++ raw ++ "." ++ ext) = None
    /\ raw <> "" /\ ext <> ""
    /\ url p = Js.to_string publicUrl ++ "/" ++ key
    /\ artistName p = spaces_for_underscores raw.
Proof.
  unfold picture_of. destruct (Key obj) as [key |]; [| discriminate].
  destruct (Js.truthy_str (Some key)); cbn [negb]; [| discriminate].
  set (filename := last (Js.split "/" key) EmptyString).
  destruct (Js.truthy_str (Some filename)); cbn [negb]; [| discriminate].
  destruct (artist_capture discordId filename) as [raw |] eqn:A; [| discriminate].
  intros [= <-]. unfold artist_capture in A.
  destruct (Js.strip_prefix (discordId ++ "-") filename) as [rest |] eqn:P;
    [| discriminate].
  destruct (dot_all rest); [| discriminate].
  destruct rest as [| c r]; [discriminate |].
  destruct (lazy_group r) as [more |] eqn:L; [| discriminate].
  injection A as <-.
  destruct (lazy_group_spec r more L) as (ext & E & NE & _).
  apply strip_prefix_app in P.
  assert (F : filename = discordId ++ "-" ++ String c more ++ "." ++ ext).
  { rewrite P, string_app_assoc, E. reflexivity. }
  destruct (split_last_suffix "/" (String.length key) key) as [dir D].
  fold (Js.split "/" key) in D. fold filename in D.
  exists key, dir, (String c more), ext.
  split; [reflexivity | split; [now rewrite <- F | split; [| split; [| split]]]].
  - rewrite <- F.
    pose proof (split_pieces "/" key) as Pieces.
    rewrite Forall_forall in Pieces. apply Pieces; [discriminate |].
    unfold filename. pose proof (split_from_nonempty "/" (String.length key) key) as N.
    unfold Js.split. destruct (Js.split_from (String.length key) "/" key) as [| x l];
      [now elim N |].
    apply (@exists_last _ (x :: l)) in N. destruct N as (l' & a & ->).
    rewrite last_last. apply in_or_app. right. now left.
  - discriminate.
  - exact NE.
  - cbn [url artistName]. split; [reflexivity |].
    destruct (spaces_for_underscores_spec (String c more)) as [Len _].
    destruct (spaces_for_underscores (String c more)) as [| x y] eqn:S;
      [cbn in Len; discriminate | reflexivity].
Qed.

(** Which of its three answers the middleware gives, from every state of
    the process. *)
Lemma authenticateApiKey_cases (pool : Pool) (apiKey : option string) :
  (exists k row rows,
     apiKey = Some k /\ k <> "" /\ q_apikey pool k = Rows (row :: rows)
     /\ forall w,
          authenticateApiKey pool apiKey w
          = (Done Next,
             {| w_cache := w_cache w; w_queries := w_queries w ++ [SelApiKey k] |}))
  \/ (exists k e,
        apiKey = Some k /\ k <> "" /\ q_apikey pool k = Failed e
        /\ forall w,
             authenticateApiKey pool apiKey w
             = (Done (Sent (fail 500 "Authentication error")),
                {| w_cache := w_cache w;
                   w_queries := w_queries w ++ [SelApiKey k] |}))
  \/ (exists msg qs,
        (apiKey = None \/ apiKey = Some ""
         \/ exists k, apiKey = Some k /\ k <> "" /\ q_apikey pool k = Rows [])
        /\ Forall (fun q => exists k, apiKey = Some k /\ q = SelApiKey k) qs
        /\ forall w,
             authenticateApiKey pool apiKey w
             = (Done (Sent (fail 401 msg)),
                {| w_cache := w_cache w; w_queries := w_queries w ++ qs |})).
Proof.
  destruct apiKey as [[| a k] |].
  - right. right. exists "API key is required", [].
    split; [auto | split; [constructor |]].
    intros [c qs0]. unfold_handler. cbn. now rewrite app_nil_r.
  - assert (Hk : String a k <> "") by discriminate.
    destruct (q_apikey pool (String a k)) as [[| row rows] | e] eqn:Q.
    + right. right. exists "Invalid API key", [SelApiKey (String a k)].
      split; [right; right; eauto | split; [repeat constructor; eauto |]].
      intros [c qs0]. unfold_handler. cbn. now rewrite Q.
    + left. exists (String a k), row, rows. repeat split; try assumption.
      intros [c qs0]. unfold_handler. cbn. now rewrite Q.
    + right. left. exists (String a k), e. repeat split; try assumption.
      intros [c qs0]. unfold_handler. cbn. now rewrite Q.
  - right. right. exists "API key is required", [].
    split; [auto | split; [constructor |]].
    intros [c qs0]. unfold_handler. cbn. now rewrite app_nil_r.
Qed.

(** Hypotheses on the key that exclude each other. *)
Ltac key_clash :=
  repeat match goal with
         | H : _ /\ _ |- _ => destruct H
         | H : exists _, _ |- _ => destruct H
         | H : _ \/ _ |- _ => destruct H
         end;
  subst;
  repeat match goal with
         | H : Some _ = Some _ |- _ => injection H as H; subst
         end;
  try discriminate; try congruence; try tauto.

(** X8: a request to the picture endpoint is always answered, never
    touches the cache and sends no query but the validation of its key.
    With a key the table holds it is answered 404 when no picture is
    found and 200 with the pictures otherwise; it is answered 500 exactly
    when the validation of the key fails, and 401 exactly when the
    middleware refuses the key.  No picture is found when the object
    store fails, when it lists nothing, and when no listed object has a
    name that matches; there is at most one picture for each listed
    object. *)
Theorem pfps_answers (pool : Pool) (apiKey : option string) (publicUrl : Js.value)
  (discordId : string) (listing : S3Result) (c : Cache) :
  literal discordId = true ->
  let pictures := fetchUserProfilePictures publicUrl discordId listing in
  let accepted :=
    exists k row rows,
      apiKey = Some k /\ k <> "" /\ q_apikey pool k = Rows (row :: rows) in
  (exists resp qs,
     run (route pool apiKey (get_api_discord_pfps publicUrl discordId listing)) c
       = (Done resp, {| w_cache := c; w_queries := qs |})
     /\ Forall (fun q => exists k, apiKey = Some k /\ q = SelApiKey k) qs
     /\ (status resp = 200 <-> accepted /\ pictures <> [])
     /\ (status resp = 404 <-> accepted /\ pictures = [])
     /\ (status resp = 500 <->
         exists k e, apiKey = Some k /\ k <> "" /\ q_apikey pool k = Failed e)
     /\ (status resp = 401 <->
         apiKey = None \/ apiKey = Some ""
         \/ exists k, apiKey = Some k /\ k <> "" /\ q_apikey pool k = Rows [])
     /\ (accepted ->
         (pictures = [] ->
          resp = fail 404 "No profile pictures found for this user")
         /\ (pictures <> [] -> resp = json (Pictures pictures))))
  /\ (pictures = [] <->
      forall objs obj, listing = Listed (Some objs) -> In obj objs ->
        picture_of publicUrl discordId obj = None)
  /\ (forall e, listing = S3Failed e -> pictures = [])
  /\ (listing = Listed None -> pictures = [])
  /\ (forall objs, listing = Listed (Some objs) ->
        (List.length pictures <= List.length objs)%nat).
Proof.
  intros _. cbv zeta.
  set (pictures := fetchUserProfilePictures publicUrl discordId listing).
  split; [| split; [| split; [| split]]].
  - assert (H : forall w,
              get_api_discord_pfps publicUrl discordId listing w
              = (Done (match pictures with
                       | [] => fail 404 "No profile pictures found for this user"
                       | _ :: _ => json (Pictures pictures)
                       end), w)).
    { intros w. unfold get_api_discord_pfps, try_catch, ret. cbv zeta.
      fold pictures. destruct pictures; reflexivity. }
    destruct (authenticateApiKey_cases pool apiKey)
      as [(k & row & rows & -> & Hk & Q & E)
         | [(k & e & -> & Hk & Q & E) | (msg & qs & Why & Keys & E)]].
    + exists (match pictures with
              | [] => fail 404 "No profile pictures found for this user"
              | _ :: _ => json (Pictures pictures)
              end), [SelApiKey k].
      split; [unfold run; rewrite (route_after _ _ _ _ _ _ (E _)); apply H |].
      split; [repeat constructor; eauto |].
      assert (A : exists k0 row0 rows0,
                Some k = Some k0 /\ k0 <> "" /\ q_apikey pool k0 = Rows (row0 :: rows0))
        by (exists k, row, rows; auto).
      destruct pictures as [| p ps]; cbn [status fail json].
      * repeat split; try discriminate; try tauto; intros; key_clash.
      * repeat split; try discriminate; try tauto; intros; key_clash.
    + exists (fail 500 "Authentication error"), [SelApiKey k].
      split; [unfold run; now rewrite (route_after _ _ _ _ _ _ (E _)) |].
      split; [repeat constructor; eauto |]. cbn [status fail].
      repeat split; try discriminate; eauto; intros; key_clash.
    + exists (fail 401 msg), qs.
      split; [unfold run; now rewrite (route_after _ _ _ _ _ _ (E _)) |].
      split; [exact Keys |]. cbn [status fail].
      repeat split; try discriminate; eauto; intros; key_clash.
  - unfold pictures. destruct listing as [[objs |] | e]; cbn.
    + split.
      * intros E objs' obj [= <-] Hin.
        destruct (picture_of publicUrl discordId obj) as [p |] eqn:P;
          [| reflexivity].
        assert (Hp : In p (flat_map (fun o => match picture_of publicUrl discordId o with
                                              | Some pfp => [pfp]
                                              | None => []
                                              end) objs)).
        { apply in_flat_map. exists obj. split; [exact Hin |].
          rewrite P. now left. }
        rewrite E in Hp. destruct Hp.
      * intros H.
        assert (H' : forall obj, In obj objs ->
                       picture_of publicUrl discordId obj = None)
          by (intros obj; apply (H objs obj eq_refl)).
        clear H. induction objs as [| o objs IH]; [reflexivity |].
        cbn. rewrite (H' o (or_introl eq_refl)). cbn.
        apply IH. intros obj Hin. apply H'. now right.
    + split; [intros _ objs obj [=] | reflexivity].
    + split; [intros _ objs obj [=] | reflexivity].
  - intros e E. unfold pictures. now rewrite E.
  - intros E. unfold pictures. now rewrite E.
  - intros objs E. unfold pictures. rewrite E. clear E. cbn.
    induction objs as [| o objs IH]; cbn; [lia |].
    rewrite List.length_app.
    destruct (picture_of publicUrl discordId o); cbn; lia.
Qed.

Lemma pfps_answers_witness :
  let pool := pool_of_db {| channel_activity := []; apikeys := ["k"];
                            messages_data := [] |} (pool_down "down") in
  exists resp qs,
    run (route pool (Some "k")
           (get_api_discord_pfps (Js.Str "https://cdn") "123" (S3Failed "down")))
      cache
    = (Done resp, {| w_cache := cache; w_queries := qs |})
    /\ status resp = 404.
Proof.
  cbv zeta.
  destruct (pfps_answers
              (pool_of_db {| channel_activity := []; apikeys := ["k"];
                             messages_data := [] |} (pool_down "down"))
              (Some "k") (Js.Str "https://cdn") "123" (S3Failed "down") cache
              eq_refl)
    as [(resp & qs & E & _ & _ & S & _) _].
  exists resp, qs. split; [exact E |]. apply S. split; [| reflexivity].
  exists "k", "k", []. repeat split. discriminate.
Defined.

(** X9: every picture answered comes from a listed object whose key ends
    in a file name [discordId-artist.ext], with [artist] and [ext] not
    empty and no [/] in the file name; its URL is the public URL, a slash
    and the key; its artist name is [artist] with every underscore turned
    into a space, so it is never empty, holds no underscore, and the
    ['Unknown'] of the source is never answered in its place. *)
Theorem picture_names (publicUrl : Js.value) (discordId : string)
  (listing : S3Result) (p : ProfilePicture) :
  literal discordId = true ->
  In p (fetchUserProfilePictures publicUrl discordId listing) ->
  exists objs key dir raw ext,
    listing = Listed (Some objs)
    /\ In {| Key := Some key |} objs
    /\ key = dir ++ discordId ++ "-" ++ raw ++ "." ++ ext
    /\ Js.cut "/" (discordId ++ "-" ++ raw ++ "." ++ ext) = None
    /\ raw <> "" /\ ext <> ""
    /\ url p = Js.to_string publicUrl ++ "/" ++ key
    /\ artistName p = spaces_for_underscores raw
    /\ artistName p <> ""
    /\ ~ In "_"%char (list_ascii_of_string (artistName p)).
Proof.
  intros _ Hin. destruct listing as [[objs |] | e]; cbn in Hin; try contradiction.
  apply in_flat_map in Hin. destruct Hin as (obj & Hobj & Hp).
  destruct (picture_of publicUrl discordId obj) as [q |] eqn:P; [| contradiction].
  destruct Hp as [<- | []].
  destruct (picture_of_spec _ _ _ _ P) as (key & dir & raw & ext & K & E & C & R & X & U & A).
  exists objs, key, dir, raw, ext.
  destruct obj as [k]. cbn in K. subst k.
  repeat (split; [assumption || reflexivity |]).
  destruct (spaces_for_underscores_spec raw) as [Len No]. rewrite A. split.
  - intros Z. rewrite Z in Len. destruct raw; [now elim R | discriminate].
  - exact No.
Qed.

Lemma picture_names_witness :
  exists objs key dir raw ext,
    Listed (Some [ {| Key := Some "pfps/123-Van_Gogh.png" |} ]) = Listed (Some objs)
    /\ In {| Key := Some key |} objs
    /\ key = dir ++ "123" ++ "-" ++ raw ++ "." ++ ext
    /\ Js.cut "/" ("123" ++ "-" ++ raw ++ "." ++ ext) = None
    /\ raw <> "" /\ ext <> ""
    /\ "https://cdn/pfps/123-Van_Gogh.png" = "https://cdn" ++ "/" ++ key
    /\ "Van Gogh" = spaces_for_underscores raw
    /\ "Van Gogh" <> ""
    /\ ~ In "_"%char (list_ascii_of_string "Van Gogh").
Proof.
  exact (picture_names (Js.Str "https://cdn") "123"
           (Listed (Some [ {| Key := Some "pfps/123-Van_Gogh.png" |} ]))
           {| url := "https://cdn/pfps/123-Van_Gogh.png"; artistName := "Van Gogh" |}
           eq_refl (or_introl eq_refl)).
Defined.

(* ================================================================== *)
(** ** The lookup against the listing *)
(* ================================================================== *)

(** In rows with one row for each identity, the rows of an identity are
    that row. *)
Lemma filter_by_identity (l : list Activity.t) (r : Activity.t) :
  NoDup (map Activity.user_id l) -> In r l ->
  filter (fun x => String.eqb (Activity.user_id x) (Activity.user_id r)) l = [r].
Proof.
  induction l as [| x l IH]; intros ND Hin; [destruct Hin |].
  cbn in ND. inversion ND as [| ? ? Hx ND']; subst. cbn.
  destruct Hin as [-> | Hin].
  - rewrite String.eqb_refl. f_equal. apply filter_none. intros y Hy.
    apply String.eqb_neq. intros E. apply Hx. rewrite <- E. now apply in_map.
  - destruct (String.eqb_spec (Activity.user_id x) (Activity.user_id r)) as [E | D].
    + elim Hx. rewrite E. now apply in_map.
    + now apply IH.
Qed.

Lemma filter_map_commute {A B} (f : B -> bool) (g : A -> B) (l : list A) :
  filter f (map g l) = map g (filter (fun x => f (g x)) l).
Proof.
  induction l as [| x l IH]; cbn; [reflexivity |].
  destruct (f (g x)); cbn; now rewrite IH.
Qed.

(** X10: when no on-server record of another identity carries the key as
    its name, and records of one identity with the same timestamp carry
    the same name and roles, the lookup by identity answers exactly the
    entry of that identity in the listing, and 404 exactly when the
    listing has no such entry. *)
Theorem lookup_agrees_with_listing (db : Db) (rest : Pool) (k : string) :
  let tbl := channel_activity db in
  (forall a, In a tbl -> Activity.on_server a = true ->
     Activity.username a = Some k -> Activity.user_id a = k) ->
  (forall a b, In a tbl -> In b tbl ->
     Activity.on_server a = true -> Activity.on_server b = true ->
     Activity.user_id a = Activity.user_id b ->
     Activity.last_message a = Activity.last_message b ->
     Sql.project a = Sql.project b) ->
  Sql.lookup tbl k
  = filter (fun r => String.eqb (Row.user_id r) k) (Sql.listing tbl)
  /\ fst (run (get_api_discord_idusername (pool_of_db db rest) k) cache)
     = Done (match filter (fun m => String.eqb (Member.discordid m) k)
                     (map member_of (Sql.listing tbl)) with
             | [] => fail 404 "User not found"
             | m :: _ => json (User m)
             end).
Proof.
  cbv zeta. set (tbl := channel_activity db). intros Names Ties.
  assert (L : Sql.lookup tbl k
              = filter (fun r => String.eqb (Row.user_id r) k) (Sql.listing tbl)).
  { destruct (latest_per_user_spec Activity.on_server tbl) as (N & Sub & Cov & Max).
    unfold Sql.lookup, Sql.listing. rewrite filter_map_commute. cbn [Sql.project Row.user_id].
    destruct (latest_per_user_head (Sql.lookup_where k) tbl)
      as [[E None] | (a & more & E & Hin & W & Least)]; rewrite E; cbn [map firstn].
    - rewrite filter_none; [reflexivity |]. intros x Hx.
      apply String.eqb_neq. intros Ex. destruct (Sub x Hx) as [Hx' On].
      pose proof (None x Hx') as F. unfold Sql.lookup_where in F.
      rewrite On, Ex, String.eqb_refl in F. discriminate.
    - unfold Sql.lookup_where in W. apply andb_prop in W. destruct W as [On W].
      assert (Ek : Activity.user_id a = k).
      { apply orb_prop in W. destruct W as [W | W].
        - now apply String.eqb_eq.
        - apply (Names a Hin On). unfold Sql.eq_param in W.
          destruct (Activity.username a) as [n |]; [| discriminate].
          apply String.eqb_eq in W. now subst. }
      destruct (Cov a Hin On) as (r & Hr & Er).
      destruct (Sub r Hr) as [Hrin Onr].
      assert (Wr : Sql.lookup_where k r = true).
      { unfold Sql.lookup_where. rewrite Onr, Er, Ek, String.eqb_refl. reflexivity. }
      assert (P : Sql.project r = Sql.project a).
      { apply Ties; try assumption.
        pose proof (Max r a Hr Hin On (eq_sym Er)).
        destruct (Least r Hrin Wr) as [_ Le]. specialize (Le Er). lia. }
      rewrite <- Ek, <- Er, (filter_by_identity _ r N Hr). cbn. now rewrite P. }
  split; [exact L |].
  unfold run, get_api_discord_idusername, try_catch, bind, query.
  cbn [pool_of_db q_lookup]. fold tbl. rewrite L, filter_map_commute.
  cbn [member_of Member.discordid].
  destruct (filter (fun x => String.eqb (Row.user_id x) k) (Sql.listing tbl));
    reflexivity.
Qed.

Lemma lookup_agrees_with_listing_witness :
  let older := Activity.mk "1" (Some "ann") (Some "A") 1 true in
  let newer := Activity.mk "1" (Some "ann") (Some "A, B") 2 true in
  let other := Activity.mk "2" (Some "bob") None 5 true in
  Sql.lookup [older; other; newer] "1"
  = filter (fun r => String.eqb (Row.user_id r) "1")
      (Sql.listing [older; other; newer]).
Proof.
  cbv zeta.
  refine (proj1 (lookup_agrees_with_listing
                   {| channel_activity :=
                        [Activity.mk "1" (Some "ann") (Some "A") 1 true;
                         Activity.mk "2" (Some "bob") None 5 true;
                         Activity.mk "1" (Some "ann") (Some "A, B") 2 true];
                      apikeys := []; messages_data := [] |}
                   (pool_down "down") "1" _ _)).
  - cbn. intros a [<- | [<- | [<- | []]]] _ E; try reflexivity; discriminate.
  - cbn. intros a b [<- | [<- | [<- | []]]] [<- | [<- | [<- | []]]] _ _ E T;
      try reflexivity; discriminate.
Defined.
